(** * To-do loot boxes: the reward engine, the task-creation protocol and
      the completion rule of [main.py], embedded in Rocq.

    Python objects live in an explicit world: a store of [Todo] objects
    addressed by reference, the caller-owned [todos] list, the state of the
    global [random] module and a trace of the calls made to the pluggable
    generators and to [print].  Methods are actions on that world which
    return a value, raise, or run out of fuel. *)

From stdpp Require Import base option list strings.
From Stdlib Require Import ZArith Lia.

Local Open Scope string_scope.
Local Open Scope list_scope.
Local Open Scope Z_scope.

(** ** Data model *)

(** References to [Todo] objects: positions in the store. *)
Abbreviation ref := nat.

(** [class Reward(ABC)]; its only concrete subclass is [Key]. *)
Module Reward.
Record t := Key {
  value : Z;
  description : string;
  key_name : string
}.
End Reward.

(** What a [Box] holds in its [pool] attribute.  [Box.__init__] stores
    whatever it is given: a [RandomPool] object, or, through
    [LootBox.__init__], the bare Python list of rewards. *)
Inductive PoolObject :=
| RandomPool (rewards : list Reward.t)
| plain_list (rewards : list Reward.t).

Definition rewards_of (p : PoolObject) : list Reward.t :=
  match p with RandomPool rs | plain_list rs => rs end.

Module Box.
Record t := mk { pool_size : Z; pool : PoolObject }.
End Box.

(** [class LootBox(Box)]: the inherited attributes are the [box] part. *)
Module LootBox.
Record t := mk { box : Box.t; name : string; key_name : string }.
End LootBox.

Module Todo.
Record t := mk {
  description : string;
  importance : Z;
  difficulty : Z;
  quality : Z;
  due_datetime : option Z;
  completed : bool;
  required_subtasks : list ref;
  optional_subtasks : list ref;
  modify_score_function : option (Z → Z)
}.

Definition with_completed (b : bool) (x : t) : t :=
  mk (description x) (importance x) (difficulty x) (quality x)
     (due_datetime x) b (required_subtasks x) (optional_subtasks x)
     (modify_score_function x).

Definition with_required (l : list ref) (x : t) : t :=
  mk (description x) (importance x) (difficulty x) (quality x)
     (due_datetime x) (completed x) l (optional_subtasks x)
     (modify_score_function x).

Definition with_optional (l : list ref) (x : t) : t :=
  mk (description x) (importance x) (difficulty x) (quality x)
     (due_datetime x) (completed x) (required_subtasks x) l
     (modify_score_function x).

(** The subtasks [_complete_subtasks] visits, in its order. *)
Definition subtasks (x : t) : list ref :=
  required_subtasks x ++ optional_subtasks x.
End Todo.

(** The pluggable capabilities. *)
Class QualityGenerator := { generate_quality : string → Z }.
Class DifficultyGenerator := { generate_difficulty : string → Z }.
Class SuggestionGenerator := { make_suggestion : string → string }.

Definition TestQualityGenerator : QualityGenerator :=
  {| generate_quality := λ _, 42 |}.
Definition TestDifficultyGenerator : DifficultyGenerator :=
  {| generate_difficulty := λ _, 50 |}.
Definition SimpleSuggestionGenerator : SuggestionGenerator :=
  {| make_suggestion := λ description, description +:+ " (updated)" |}.

(** ** The world and the actions on it *)

Inductive event :=
| called_generate_difficulty (description : string)
| called_generate_quality (description : string)
| called_make_suggestion (description : string)
| printed (line : string).

Record World := mkWorld {
  store : list Todo.t;     (* every Todo object allocated so far *)
  todos : list ref;        (* the caller-owned list handed to create_task *)
  draws : nat → Z;         (* the random source, one raw number per draw *)
  cursor : nat;            (* how many draws have been consumed *)
  trace : list event       (* generator calls and printed lines, oldest first *)
}.

Definition set_store (s : list Todo.t) (w : World) : World :=
  mkWorld s (todos w) (draws w) (cursor w) (trace w).
Definition set_todos (l : list ref) (w : World) : World :=
  mkWorld (store w) l (draws w) (cursor w) (trace w).
Definition advance (w : World) : World :=
  mkWorld (store w) (todos w) (draws w) (S (cursor w)) (trace w).
Definition log (e : event) (w : World) : World :=
  mkWorld (store w) (todos w) (draws w) (cursor w) (trace w ++ [e]).

Inductive exn :=
| PrerequisiteError   (* Exception("Not all required subtasks are complete") *)
| AttributeError      (* a method looked up on an object that lacks it *)
| ValueError          (* random.randint on an empty range *)
| IndexError          (* a list index out of range *)
| DanglingReference.  (* a reference outside the store; no Python run has one *)

Inductive outcome (A : Type) :=
| Ret (a : A)
| Raise (e : exn)
| OutOfFuel.
Arguments Ret {A} a.
Arguments Raise {A} e.
Arguments OutOfFuel {A}.

(** An action runs in a world and leaves a world behind, also when it
    raises: Python does not roll back what was done before the exception. *)
Definition Act (A : Type) : Type := World → outcome A * World.

Definition ret {A} (a : A) : Act A := λ w, (Ret a, w).
Definition raise {A} (e : exn) : Act A := λ w, (Raise e, w).
Definition out_of_fuel {A} : Act A := λ w, (OutOfFuel, w).
Definition bind {A B} (m : Act A) (k : A → Act B) : Act B :=
  λ w, match m w with
       | (Ret a, w') => k a w'
       | (Raise e, w') => (Raise e, w')
       | (OutOfFuel, w') => (OutOfFuel, w')
       end.

Declare Scope act_scope.
Delimit Scope act_scope with act.
Notation "x <- m ;; k" := (bind m (λ x, k))
  (at level 100, m at next level, right associativity) : act_scope.
Notation "m ;; k" := (bind m (λ _, k))
  (at level 100, right associativity) : act_scope.
Local Open Scope act_scope.

Definition emit (e : event) : Act unit := λ w, (Ret tt, log e w).
Definition print (line : string) : Act unit := emit (printed line).

(** Python's [for x in l: f(x)]. *)
Fixpoint for_each {A} (f : A → Act unit) (l : list A) : Act unit :=
  match l with
  | [] => ret tt
  | x :: l' => f x;; for_each f l'
  end.

(** ** The random source *)

(** [random.randint(a, b)]: one draw, a value [N] with [a <= N <= b]. *)
Definition randint (a b : Z) : Act Z :=
  λ w, if b <? a then (Raise ValueError, w)
       else (Ret (a + draws w (cursor w) `mod` (b - a + 1)), advance w).

(** ** Pool and Box *)

(** [pool.select_reward()].  A list has no such method. *)
Definition select_reward (p : PoolObject) : Act (option Reward.t) :=
  match p with
  | RandomPool rewards =>
      match rewards with
      | [] => ret None
      | _ :: _ =>
          index <- randint 0 (Z.of_nat (length rewards) - 1);;
          match rewards !! Z.to_nat index with
          | Some r => ret (Some r)
          | None => raise IndexError
          end
      end
  | plain_list _ => raise AttributeError
  end.

(** The [while] loop of [Box.get_reward_pool], one unit of fuel per
    iteration; [reward_pool] is the list accumulated so far. *)
Fixpoint reward_loop (fuel : nat) (self : Box.t) (modifier : Z)
    (reward_pool : list Reward.t) : Act (list Reward.t) :=
  if Z.of_nat (length reward_pool) <? Box.pool_size self then
    match fuel with
    | O => out_of_fuel
    | S fuel' =>
        reward <- select_reward (Box.pool self);;
        match reward with
        | Some r =>
            roll <- randint 1 1000;;
            let chance := roll + modifier in
            if Reward.value r <=? chance
            then reward_loop fuel' self modifier (reward_pool ++ [r])
            else reward_loop fuel' self modifier reward_pool
        | None => reward_loop fuel' self modifier reward_pool
        end
    end
  else ret reward_pool.

Definition get_reward_pool (fuel : nat) (self : Box.t) (modifier : Z)
  : Act (list Reward.t) :=
  reward_loop fuel self modifier [].

(** [LootBox.__init__]: [super().__init__(pool_size, rewards)] passes the
    list itself as the pool. *)
Definition LootBox_init (name key_name : string) (pool_size : Z)
    (rewards : list Reward.t) : LootBox.t :=
  LootBox.mk (Box.mk pool_size (plain_list rewards)) name key_name.

(** [LootBox.open_box]: [None] is Python's [None], the refusal. *)
Definition open_box (fuel : nat) (self : LootBox.t) (key : Reward.t)
  : Act (option (list Reward.t)) :=
  if String.eqb (Reward.key_name key) (LootBox.key_name self)
  then rewards <- get_reward_pool fuel (LootBox.box self) 0;; ret (Some rewards)
  else ret None.

(** ** Todo *)

Definition read (r : ref) : Act Todo.t :=
  λ w, match store w !! r with
       | Some t => (Ret t, w)
       | None => (Raise DanglingReference, w)
       end.

Definition update (r : ref) (f : Todo.t → Todo.t) : Act unit :=
  λ w, match store w !! r with
       | Some t => (Ret tt, set_store (<[r := f t]> (store w)) w)
       | None => (Raise DanglingReference, w)
       end.

Definition alloc (t : Todo.t) : Act ref :=
  λ w, (Ret (length (store w)), set_store (store w ++ [t]) w).

(** [Todo.__init__].  [difficulty], [quality] and the two generators are
    the [Optional] arguments of the constructor; a generator call is
    recorded in the trace. *)
Definition Todo_init (description : string) (importance : Z)
    (difficulty quality : option Z) (due_datetime : option Z)
    (quality_generator : option QualityGenerator)
    (difficulty_generator : option DifficultyGenerator)
    (modify_score_function : option (Z → Z)) : Act ref :=
  difficulty' <-
    match difficulty with
    | Some d => ret d
    | None =>
        match difficulty_generator with
        | Some g =>
            emit (called_generate_difficulty description);;
            ret (@generate_difficulty g description)
        | None => ret 1
        end
    end;;
  quality' <-
    match quality with
    | Some q => ret q
    | None =>
        match quality_generator with
        | Some g =>
            emit (called_generate_quality description);;
            ret (@generate_quality g description)
        | None => ret 0
        end
    end;;
  alloc (Todo.mk description importance difficulty' quality' due_datetime
           false [] [] modify_score_function).

Definition add_subtask (self subtask : ref) (required : bool) : Act unit :=
  if required
  then update self
         (λ t, Todo.with_required (Todo.required_subtasks t ++ [subtask]) t)
  else update self
         (λ t, Todo.with_optional (Todo.optional_subtasks t ++ [subtask]) t).

(** [subtask.completed], read in world [w]. *)
Definition completed_in (w : World) (subtask : ref) : bool :=
  match store w !! subtask with
  | Some t => Todo.completed t
  | None => false
  end.

(** [Todo._complete_subtasks], given the method to call on each subtask. *)
Definition _complete_subtasks (mark_complete : ref → Act unit) (self : ref)
  : Act unit :=
  t <- read self;;
  for_each mark_complete (Todo.required_subtasks t);;
  for_each mark_complete (Todo.optional_subtasks t).

(** [Todo.mark_complete]; [depth] bounds the nesting of the calls. *)
Fixpoint mark_complete (depth : nat) (self : ref) : Act unit :=
  match depth with
  | O => out_of_fuel
  | S depth' =>
      t <- read self;;
      λ w,
        if forallb (completed_in w) (Todo.required_subtasks t)
        then (update self (Todo.with_completed true);;
              _complete_subtasks (mark_complete depth') self) w
        else raise PrerequisiteError w
  end.

Definition get_value (self : ref) : Act Z :=
  t <- read self;;
  let base_value := Todo.importance t * Todo.difficulty t in
  match Todo.modify_score_function t with
  | Some f => ret (f base_value)
  | None => ret base_value
  end.

(** ** Task creation *)

(** [Key.activate]: its body is [pass]. *)
Definition activate (self : Reward.t) : Act unit := ret tt.

Definition add_todo (todo : ref) : Act unit :=
  λ w, (Ret tt, set_todos (todos w ++ [todo]) w).

(** The [modifier > 0] branch of [create_task] (lines 186-195). *)
Definition reward_branch (fuel : nat) (reward_box : Box.t) (modifier : Z)
  : Act (option Reward.t) :=
  rewards <- get_reward_pool fuel reward_box modifier;;
  match rewards with
  | _ :: _ =>
      print "Opened reward box and received rewards:";;
      reward <- select_reward (RandomPool rewards);;
      match reward with
      | Some r => print (Reward.description r);; activate r;; ret (Some r)
      | None => raise AttributeError
      end
  | [] => print "Failed to open reward box.";; ret None
  end.

(** The [random_chance >= importance] branch (lines 199-208): the reward
    is selected before the draw is tested for emptiness. *)
Definition punishment_branch (fuel : nat) (punishment_box : Box.t)
    (modifier : Z) : Act (option Reward.t) :=
  rewards <- get_reward_pool fuel punishment_box modifier;;
  reward <- select_reward (RandomPool rewards);;
  match rewards with
  | _ :: _ =>
      print "Opened punishment box and received rewards:";;
      match reward with
      | Some r => print (Reward.description r);; activate r;; ret (Some r)
      | None => raise AttributeError
      end
  | [] => print "Failed to open punishment box.";; ret None
  end.

(** [SimpleTaskCreationStrategy.create_task].  The [todos] argument is the
    list of the world; [depth] bounds the recursion on the suggestion
    path and [fuel] each box's loop. *)
Fixpoint create_task (depth fuel : nat) (description : string)
    (importance : Z)
    (difficulty_generator : DifficultyGenerator)
    (quality_generator : QualityGenerator)
    (suggestion_generator : SuggestionGenerator)
    (reward_box punishment_box : Box.t) : Act (option Reward.t) :=
  match depth with
  | O => out_of_fuel
  | S depth' =>
      new_todo <- Todo_init description importance None None None
                    (Some quality_generator) (Some difficulty_generator) None;;
      add_todo new_todo;;
      t <- read new_todo;;
      let quality := Todo.quality t in
      let modifier := quality * (11 - importance) in
      if 0 <? modifier then reward_branch fuel reward_box modifier
      else
        random_chance <- randint 1 10;;
        if importance <=? random_chance
        then punishment_branch fuel punishment_box modifier
        else
          emit (called_make_suggestion description);;
          let new_description :=
            @make_suggestion suggestion_generator description in
          print ("Suggestion made: " +:+ new_description);;
          create_task depth' fuel new_description importance
            difficulty_generator quality_generator suggestion_generator
            reward_box punishment_box
  end.

(** ** What the theorems speak about *)

(** The draws of the iteration of [Box.get_reward_pool] that starts at draw
    [c]: the candidate [rewards[index]] and the roll in [1, 1000]. *)
Definition candidate_at (d : nat → Z) (rewards : list Reward.t) (c : nat)
  : option Reward.t :=
  rewards !! Z.to_nat (d c `mod` Z.of_nat (length rewards)).

Definition roll_at (d : nat → Z) (c : nat) : Z := 1 + d c `mod` 1000.

(** The reward the [j]-th iteration appends, if any, when the loop started
    at draw [c] over a non-empty pool. *)
Definition accepted_at (d : nat → Z) (rewards : list Reward.t)
    (modifier : Z) (c j : nat) : option Reward.t :=
  match candidate_at d rewards (c + 2 * j)%nat with
  | Some r =>
      if Reward.value r <=? roll_at d (c + 2 * j + 1)%nat + modifier
      then Some r else None
  | None => None
  end.

(** Two worlds that differ at most in the number of draws consumed. *)
Definition only_draws (w w' : World) : Prop :=
  store w' = store w ∧ todos w' = todos w ∧ draws w' = draws w
  ∧ trace w' = trace w.

(** [w'] differs from [w] at most in [completed] flags that went from
    false to true. *)
Definition completes (w w' : World) : Prop :=
  todos w' = todos w ∧ draws w' = draws w ∧ cursor w' = cursor w
  ∧ trace w' = trace w
  ∧ Forall2 (λ t t', t' = Todo.with_completed (Todo.completed t') t
                     ∧ (Todo.completed t = true → Todo.completed t' = true))
            (store w) (store w').

(** [reaches w r d]: [d] is [r] or a required or optional subtask of it, at
    any depth. *)
Inductive reaches (w : World) : ref → ref → Prop :=
| reaches_self r : reaches w r r
| reaches_subtask r t c d :
    store w !! r = Some t → c ∈ Todo.subtasks t → reaches w c d →
    reaches w r d.

(** [ready depth w r]: the subtasks of [r] nest less than [depth] deep, and
    [r] and every Todo below it have all their required subtasks
    completed. *)
Fixpoint ready (depth : nat) (w : World) (r : ref) : bool :=
  match depth with
  | O => false
  | S depth' =>
      match store w !! r with
      | Some t =>
          forallb (completed_in w) (Todo.required_subtasks t)
          && forallb (ready depth' w) (Todo.subtasks t)
      | None => false
      end
  end.

(** The Todo that [create_task] constructs for a description, and the
    world right after it has been appended to [todos] (lines 179-180). *)
Definition new_todo_of (description : string) (importance : Z)
    (dg : DifficultyGenerator) (qg : QualityGenerator) : Todo.t :=
  Todo.mk description importance (@generate_difficulty dg description)
    (@generate_quality qg description) None false [] [] None.

Definition entered (description : string) (importance : Z)
    (dg : DifficultyGenerator) (qg : QualityGenerator) (w : World) : World :=
  mkWorld (store w ++ [new_todo_of description importance dg qg])
          (todos w ++ [length (store w)])
          (draws w) (cursor w)
          (trace w ++ [called_generate_difficulty description;
                       called_generate_quality description]).

(** The descriptions of successive invocations on the suggestion path. *)
Definition attempt (sg : SuggestionGenerator) (description : string)
    (i : nat) : string :=
  Nat.iter i (@make_suggestion sg) description.

(** How many Todos a stretch of the trace saw constructed by
    [create_task]: each construction there asks the quality generator
    once. *)
Definition is_construction (e : event) : bool :=
  match e with called_generate_quality _ => true | _ => false end.

Definition constructions (tr : list event) : nat :=
  length (List.filter is_construction tr).

(** An action that leaves the store and the [todos] list as they are and
    constructs no Todo, whatever its outcome. *)
Definition builds_nothing {A} (m : Act A) : Prop :=
  ∀ w o w', m w = (o, w') →
    store w' = store w ∧ todos w' = todos w
    ∧ ∃ tr, trace w' = trace w ++ tr ∧ constructions tr = 0%nat.

(** ** Concrete objects: the script at the end of [main.py] and small
    Todo families *)

Definition reward1 := Reward.Key 100 "Reward Key 1" "reward_key_1".
Definition reward2 := Reward.Key 200 "Reward Key 2" "reward_key_2".
Definition reward3 := Reward.Key 300 "Reward Key 3" "reward_key_3".
Definition punishment1 := Reward.Key 50 "Punishment Key 1" "punishment_key_1".
Definition punishment2 := Reward.Key 100 "Punishment Key 2" "punishment_key_2".
Definition punishment3 := Reward.Key 150 "Punishment Key 3" "punishment_key_3".

Definition reward_pool := RandomPool [reward1; reward2; reward3].
Definition punishment_pool :=
  RandomPool [punishment1; punishment2; punishment3].
Definition reward_box := Box.mk 3 reward_pool.
Definition punishment_box := Box.mk 3 punishment_pool.

(** A box none of whose rewards any roll can reach without a modifier. *)
Definition vault := Box.mk 1 (RandomPool [Reward.Key 2000 "Crown" "crown"]).

(** A quality generator that scores every description 0. *)
Definition ZeroQualityGenerator : QualityGenerator :=
  {| generate_quality := λ _, 0 |}.

(** An empty world whose random source returns [z] at every draw. *)
Definition fresh_world (z : Z) : World := mkWorld [] [] (λ _, z) 0 [].

Definition plain_todo (description : string) : Act ref :=
  Todo_init description 1 None None None None None None.

(** [parent] (reference 0) has one optional subtask [optional]
    (reference 1), which has one required subtask [prerequisite]
    (reference 2); nothing is completed. *)
Definition family : Act ref :=
  parent <- plain_todo "parent";;
  optional <- plain_todo "optional";;
  prerequisite <- plain_todo "prerequisite";;
  add_subtask optional prerequisite true;;
  add_subtask parent optional false;;
  ret parent.

Definition family_world : World := snd (family (fresh_world 0)).

(** [parent] (reference 0) with a required subtask that was completed
    before it was attached (reference 1) and an optional one with no
    subtasks of its own (reference 2). *)
Definition tidy_family : Act ref :=
  parent <- plain_todo "parent";;
  done <- plain_todo "done";;
  extra <- plain_todo "extra";;
  mark_complete 1 done;;
  add_subtask parent done true;;
  add_subtask parent extra false;;
  ret parent.

Definition tidy_world : World := snd (tidy_family (fresh_world 0)).

(** [parent] (reference 0) was completed while it had no subtasks, and
    then got a required subtask (reference 1) that is not completed. *)
Definition late_subtask : Act ref :=
  parent <- plain_todo "parent";;
  mark_complete 1 parent;;
  child <- plain_todo "child";;
  add_subtask parent child true;;
  ret parent.

Definition late_world : World := snd (late_subtask (fresh_world 0)).

(** ** The helper functions on a list of Todos *)

(** [list.remove(x)]: the list without the first occurrence of [x];
    [None] stands for the [ValueError] of a list that does not hold it. *)
Fixpoint remove_first (x : ref) (l : list ref) : option (list ref) :=
  match l with
  | [] => None
  | y :: l' =>
      if decide (x = y) then Some l' else (y ::.) <$> remove_first x l'
  end.

(** [get_todo]: the [for] loop over [todos], returning at the first
    match. *)
Fixpoint get_todo (todos : list ref) (description : string)
  : Act (option ref) :=
  match todos with
  | [] => ret None
  | todo :: todos' =>
      t <- read todo;;
      if String.eqb (Todo.description t) description
      then ret (Some todo)
      else get_todo todos' description
  end.

(** [remove_todo], on the list of the world. *)
Definition remove_todo (description : string) : Act bool :=
  λ w,
    (todo <- get_todo (todos w) description;;
     match todo with
     | Some r =>
         λ v, match remove_first r (todos v) with
              | Some l => (Ret true, set_todos l v)
              | None => (Raise ValueError, v)
              end
     | None => ret false
     end) w.

Definition list_todos (todos : list ref) : Act (list ref) := ret todos.

(** The list comprehension [[todo for todo in todos if test(todo)]]. *)
Fixpoint comprehension (test : Todo.t → bool) (todos : list ref)
  : Act (list ref) :=
  match todos with
  | [] => ret []
  | todo :: todos' =>
      t <- read todo;;
      rest <- comprehension test todos';;
      ret (if test t then todo :: rest else rest)
  end.

Definition list_todos_by_completion_status (todos : list ref)
    (completed : bool) : Act (list ref) :=
  comprehension (λ t, Bool.eqb (Todo.completed t) completed) todos.

Definition list_todos_by_importance (todos : list ref) (importance : Z)
  : Act (list ref) :=
  comprehension (λ t, Todo.importance t =? importance) todos.

Definition list_todos_by_due_date (todos : list ref) (due_date : option Z)
  : Act (list ref) :=
  comprehension (λ t, bool_decide (Todo.due_datetime t = due_date)) todos.

(** ** What the further theorems speak about *)

(** Every reference of the list is in the store. *)
Definition allocated (w : World) (l : list ref) : Prop :=
  Forall (λ r, is_Some (store w !! r)) l.

(** [todo.description == description], read in world [w]. *)
Definition described (w : World) (description : string) (todo : ref) : bool :=
  match store w !! todo with
  | Some t => String.eqb (Todo.description t) description
  | None => false
  end.

(** [settled depth w r]: [r] and every Todo below it are completed, and
    the subtasks nest less than [depth] deep. *)
Fixpoint settled (depth : nat) (w : World) (r : ref) : bool :=
  match depth with
  | O => false
  | S depth' =>
      match store w !! r with
      | Some t => Todo.completed t && forallb (settled depth' w) (Todo.subtasks t)
      | None => false
      end
  end.

(** A quality generator that scores every description [-200]. *)
Definition PoorQualityGenerator : QualityGenerator :=
  {| generate_quality := λ _, -200 |}.

(** A Todo that lists itself as an optional subtask (reference 0). *)
Definition own_subtask : Act ref :=
  parent <- plain_todo "parent";;
  add_subtask parent parent false;;
  ret parent.

Definition loop_world : World := snd (own_subtask (fresh_world 0)).

(** Three Todos on the list, "a", "b" and again "a". *)
Definition three_todos : Act unit :=
  a <- plain_todo "a";; add_todo a;;
  b <- plain_todo "b";; add_todo b;;
  a' <- plain_todo "a";; add_todo a'.

Definition listed_world : World := snd (three_todos (fresh_world 0)).

(** * Proofs *)

(** ** Sampling *)

Lemma only_draws_refl w : only_draws w w.
Proof. by repeat split. Qed.

Lemma only_draws_trans w1 w2 w3 :
  only_draws w1 w2 → only_draws w2 w3 → only_draws w1 w3.
Proof. unfold only_draws. intros (?&?&?&?) (?&?&?&?). repeat split; congruence. Qed.

Lemma only_draws_advance w : only_draws w (advance w).
Proof. by repeat split. Qed.

Lemma randint_run a b w :
  a ≤ b →
  randint a b w
  = (Ret (a + draws w (cursor w) `mod` (b - a + 1)), advance w).
Proof.
  intros Hab. unfold randint.
  destruct (b <? a) eqn:E; [apply Z.ltb_lt in E; lia | done].
Qed.

Lemma randint_range a b w :
  a ≤ b → a ≤ a + draws w (cursor w) `mod` (b - a + 1) ≤ b.
Proof.
  intros Hab.
  pose proof (Z.mod_pos_bound (draws w (cursor w)) (b - a + 1)). lia.
Qed.

Lemma select_reward_run rewards w :
  rewards ≠ [] →
  ∃ r, candidate_at (draws w) rewards (cursor w) = Some r
       ∧ select_reward (RandomPool rewards) w = (Ret (Some r), advance w).
Proof.
  intros Hne. unfold candidate_at.
  assert (Hlen : 0 < Z.of_nat (length rewards))
    by (destruct rewards; [done | simpl; lia]).
  pose proof (Z.mod_pos_bound (draws w (cursor w)) _ Hlen) as Hb.
  destruct (lookup_lt_is_Some_2 rewards
              (Z.to_nat (draws w (cursor w) `mod` Z.of_nat (length rewards))))
    as [r Hr].
  { revert Hb. generalize (draws w (cursor w) `mod` Z.of_nat (length rewards)).
    intros z Hz. lia. }
  exists r. split; [done|].
  unfold select_reward. destruct rewards as [|r0 rs] eqn:E; [done|].
  rewrite <- E in *. clear Hb. unfold bind. rewrite randint_run by lia.
  replace (Z.of_nat (length rewards) - 1 - 0 + 1)
    with (Z.of_nat (length rewards)) by lia.
  rewrite Z.add_0_l. by rewrite Hr.
Qed.

Lemma select_reward_empty w :
  select_reward (RandomPool []) w = (Ret None, w).
Proof. done. Qed.

Lemma select_reward_list rewards w :
  select_reward (plain_list rewards) w = (Raise AttributeError, w).
Proof. done. Qed.

(** Whatever the pool object, [select_reward] touches nothing but the
    random source and hands out members of the pool only. *)
Lemma select_reward_frame p w o w' :
  select_reward p w = (o, w') →
  only_draws w w' ∧ ∀ r, o = Ret (Some r) → r ∈ rewards_of p.
Proof.
  destruct p as [rewards|rewards].
  - destruct (decide (rewards = [])) as [->|Hne].
    + rewrite select_reward_empty. intros [= <- <-].
      split; [apply only_draws_refl | by intros r [=]].
    + destruct (select_reward_run rewards w Hne) as (r & Hc & ->).
      intros [= <- <-]. split; [apply only_draws_advance|].
      intros r' [= <-]. by eapply list_elem_of_lookup_2.
  - rewrite select_reward_list. intros [= <- <-].
    split; [apply only_draws_refl | by intros r [=]].
Qed.

Lemma omap_cons {A B} (f : A → option B) x l :
  omap f (x :: l)
  = match f x with Some y => y :: omap f l | None => omap f l end.
Proof. done. Qed.

Lemma omap_seq_S {A} (f : nat → option A) a n :
  omap (λ j, f (S j)) (seq a n) = omap f (seq (S a) n).
Proof.
  revert a. induction n as [|n IH]; intros a; [done|].
  simpl. by rewrite IH.
Qed.

Lemma accepted_at_S d rewards modifier c j :
  accepted_at d rewards modifier c (S j)
  = accepted_at d rewards modifier (S (S c)) j.
Proof.
  unfold accepted_at.
  by replace (c + 2 * S j)%nat with (S (S c) + 2 * j)%nat by lia.
Qed.

Lemma omap_accepted_S d rewards modifier c n :
  omap (accepted_at d rewards modifier c) (seq 0 (S n))
  = from_option (λ r, [r]) [] (accepted_at d rewards modifier c 0%nat)
    ++ omap (accepted_at d rewards modifier (S (S c))) (seq 0 n).
Proof.
  assert (omap (accepted_at d rewards modifier c) (seq 1 n)
          = omap (accepted_at d rewards modifier (S (S c))) (seq 0 n)) as E.
  { rewrite <- omap_seq_S. apply list_omap_ext.
    apply Forall2_same_length_lookup_2; [done|].
    intros i x y Hx Hy. rewrite Hx in Hy. injection Hy as <-.
    rewrite accepted_at_S. by destruct (accepted_at _ _ _ _ _). }
  change (seq 0 (S n)) with (0%nat :: seq 1 n).
  rewrite omap_cons, E.
  by destruct (accepted_at d rewards modifier c 0%nat).
Qed.
(*
  - apply Forall2_same_length_lookup_2; [done|].
    intros i x y Hx Hy. rewrite Hx in Hy. injection Hy as <-.
    rewrite accepted_at_S. by destruct (accepted_at _ _ _ _ _).
Qed. *)

(** The loop touches nothing but the random source, and what it returns
    beyond the rewards it started with are members of the pool. *)
Lemma reward_loop_frame fuel self modifier :
  ∀ acc w o w',
    reward_loop fuel self modifier acc w = (o, w') →
    only_draws w w'
    ∧ ∀ rs, o = Ret rs →
            ∀ r, r ∈ rs → r ∈ acc ∨ r ∈ rewards_of (Box.pool self).
Proof.
  induction fuel as [|fuel IH]; intros acc w o w' H; simpl in H;
    destruct (Z.of_nat (length acc) <? Box.pool_size self) eqn:Hg;
    try (injection H as <- <-;
         split; [apply only_draws_refl | intros rs [=]; subst; auto]).
  unfold bind at 1 in H.
  destruct (select_reward (Box.pool self) w) as [[[r|]|e|] w1] eqn:Hsel;
    destruct (select_reward_frame _ _ _ _ Hsel) as [Hs Hmem];
    try (injection H as <- <-; split; [done | by intros rs [=]]).
  - unfold bind at 1, randint at 1 in H. simpl in H.
    assert (Hd : only_draws w (advance w1))
      by (eapply only_draws_trans; [done | apply only_draws_advance]).
    destruct (Reward.value r <=? _); apply IH in H as [Hf Hr].
    + split; [by eapply only_draws_trans|].
      intros rs Hrs x Hx. destruct (Hr rs Hrs x Hx) as [Ha|]; [|by right].
      apply elem_of_app in Ha as [|Ha]; [by left|].
      apply list_elem_of_singleton in Ha as ->. right. by apply Hmem.
    + split; [by eapply only_draws_trans | done].
  - apply IH in H as [Hf Hr].
    split; [by eapply only_draws_trans | done].
Qed.

Lemma accepted_at_0 d rewards modifier c r :
  candidate_at d rewards c = Some r →
  accepted_at d rewards modifier c 0%nat
  = if Reward.value r <=? roll_at d (S c) + modifier then Some r else None.
Proof.
  intros Hc. unfold accepted_at.
  replace (c + 2 * 0)%nat with c by lia.
  replace (c + 1)%nat with (S c) by lia. by rewrite Hc.
Qed.

(** The loop over a non-empty [RandomPool], iteration by iteration. *)
Lemma reward_loop_accepts fuel self modifier rewards :
  Box.pool self = RandomPool rewards → rewards ≠ [] →
  ∀ acc w rs w',
    reward_loop fuel self modifier acc w = (Ret rs, w') →
    ∃ n : nat,
      cursor w' = (cursor w + 2 * n)%nat
      ∧ rs = acc ++ omap (accepted_at (draws w) rewards modifier (cursor w))
                         (seq 0 n)
      ∧ Z.of_nat (length rs)
        = Z.max (Z.of_nat (length acc)) (Box.pool_size self).
Proof.
  intros Hpool Hne.
  induction fuel as [|fuel IH]; intros acc w rs w' H; simpl in H;
    destruct (Z.of_nat (length acc) <? Box.pool_size self) eqn:Hg;
    try discriminate;
    try (injection H as <- <-; exists 0%nat; simpl;
         rewrite app_nil_r; apply Z.ltb_ge in Hg;
         repeat split; lia).
  apply Z.ltb_lt in Hg.
  unfold bind at 1 in H. rewrite Hpool in H.
  destruct (select_reward_run rewards w Hne) as (r & Hc & Hrun).
  rewrite Hrun in H.
  unfold bind at 1 in H. rewrite randint_run in H by lia.
  change (1 + draws (advance w) (cursor (advance w)) `mod` (1000 - 1 + 1))
    with (roll_at (draws w) (S (cursor w))) in H.
  destruct (Reward.value r <=? roll_at (draws w) (S (cursor w)) + modifier)
    eqn:Hacc;
    apply IH in H as (n & Hcur & Hrs & Hlen); simpl in Hcur, Hrs;
    exists (S n); rewrite omap_accepted_S, (accepted_at_0 _ _ _ _ r Hc), Hacc;
    simpl; (split; [lia|]); (split; [by rewrite Hrs, <- ?app_assoc|]).
  - rewrite length_app in Hlen. simpl in Hlen. lia.
  - done.
Qed.

(** Every value within reach of the first roll: one draw per reward is
    enough, so [pool_size] iterations of fuel give a result. *)
Lemma reward_loop_terminates self modifier rewards :
  Box.pool self = RandomPool rewards → rewards ≠ [] →
  Forall (λ r, Reward.value r ≤ 1 + modifier) rewards →
  ∀ fuel acc w,
    Box.pool_size self ≤ Z.of_nat (length acc) + Z.of_nat fuel →
    ∃ rs w', reward_loop fuel self modifier acc w = (Ret rs, w').
Proof.
  intros Hpool Hne Hall.
  induction fuel as [|fuel IH]; intros acc w Hk; simpl;
    destruct (Z.of_nat (length acc) <? Box.pool_size self) eqn:Hg;
    try (by eexists _, _);
    try (apply Z.ltb_lt in Hg; lia).
  unfold bind at 1. rewrite Hpool.
  destruct (select_reward_run rewards w Hne) as (r & Hc & ->).
  unfold bind at 1. rewrite randint_run by lia.
  assert (Hr : Reward.value r ≤ 1 + modifier).
  { rewrite Forall_forall in Hall. apply Hall.
    by eapply list_elem_of_lookup_2. }
  destruct (Z.leb_spec (Reward.value r)
              (1 + draws (advance w) (cursor (advance w))
                     `mod` (1000 - 1 + 1) + modifier)) as [_|Hlt].
  - apply IH. rewrite length_app. simpl. lia.
  - pose proof (Z.mod_pos_bound (draws (advance w) (cursor (advance w)))
                  (1000 - 1 + 1)) as Hb.
    revert Hlt Hb. generalize (draws (advance w) (cursor (advance w))
                     `mod` (1000 - 1 + 1)). intros z ? ?. lia.
Qed.

(** No value within reach of any roll: no iteration accepts, the list
    stays empty and the loop takes two more draws per unit of fuel. *)
Lemma reward_loop_starves self modifier rewards :
  0 < Box.pool_size self →
  Box.pool self = RandomPool rewards → rewards ≠ [] →
  Forall (λ r, 1000 + modifier < Reward.value r) rewards →
  ∀ fuel w,
    ∃ w', reward_loop fuel self modifier [] w = (OutOfFuel, w')
          ∧ cursor w' = (cursor w + 2 * fuel)%nat.
Proof.
  intros Hk Hpool Hne Hall.
  assert (Hg : (0 <? Box.pool_size self) = true) by by apply Z.ltb_lt.
  induction fuel as [|fuel IH]; intros w; simpl;
    change (Z.of_nat 0) with 0; rewrite Hg.
  { exists w. split; [done | lia]. }
  unfold bind at 1. rewrite Hpool.
  destruct (select_reward_run rewards w Hne) as (r & Hc & ->).
  unfold bind at 1. rewrite randint_run by lia.
  assert (Hr : 1000 + modifier < Reward.value r).
  { rewrite Forall_forall in Hall. apply Hall.
    by eapply list_elem_of_lookup_2. }
  destruct (Z.leb_spec (Reward.value r)
              (1 + draws (advance w) (cursor (advance w))
                     `mod` (1000 - 1 + 1) + modifier)) as [Hle|_].
  - pose proof (Z.mod_pos_bound (draws (advance w) (cursor (advance w)))
                  (1000 - 1 + 1)) as Hb.
    revert Hle Hb. generalize (draws (advance w) (cursor (advance w))
                     `mod` (1000 - 1 + 1)). intros z ? ?. lia.
  - destruct (IH (advance (advance w))) as (w' & -> & Hcur).
    exists w'. split; [done|]. simpl in Hcur. lia.
Qed.

(** ** Completion *)

Lemma completes_refl w : completes w w.
Proof.
  repeat split. apply Forall2_same_length_lookup_2; [done|].
  intros i t t' H1 H2. rewrite H1 in H2. injection H2 as <-.
  split; [by destruct t | done].
Qed.

Lemma completes_trans w1 w2 w3 :
  completes w1 w2 → completes w2 w3 → completes w1 w3.
Proof.
  intros (?&?&?&?&H12) (?&?&?&?&H23). repeat split; try congruence.
  eapply Forall2_trans; [|done..].
  intros t1 t2 t3 [E1 M1] [E2 M2]. split; [|auto].
  rewrite E2, E1. by destruct t1.
Qed.

Lemma completes_lookup w w' r t :
  completes w w' → store w !! r = Some t →
  ∃ t', store w' !! r = Some t'
        ∧ t' = Todo.with_completed (Todo.completed t') t
        ∧ (Todo.completed t = true → Todo.completed t' = true).
Proof.
  intros (_&_&_&_&HF) Hr.
  destruct (Forall2_lookup_l _ _ _ _ _ HF Hr) as (t' & Hr' & E & M).
  by exists t'.
Qed.

Lemma completes_completed_in w w' r :
  completes w w' → completed_in w r = true → completed_in w' r = true.
Proof.
  intros Hc. unfold completed_in.
  destruct (store w !! r) as [t|] eqn:Hr; [|done].
  destruct (completes_lookup _ _ _ _ Hc Hr) as (t' & -> & _ & M). auto.
Qed.

Lemma completes_reaches w w' r d :
  completes w w' → reaches w r d → reaches w' r d.
Proof.
  intros Hc. induction 1 as [r|r t c d Hr Hin _ IH]; [constructor|].
  destruct (completes_lookup _ _ _ _ Hc Hr) as (t' & Hr' & E & _).
  eapply reaches_subtask; [done| |done]. rewrite E. by destruct t.
Qed.

Lemma update_completed w r t :
  store w !! r = Some t →
  ∃ w', update r (Todo.with_completed true) w = (Ret tt, w')
        ∧ store w' = <[r := Todo.with_completed true t]> (store w)
        ∧ completes w w' ∧ completed_in w' r = true.
Proof.
  intros Hr. unfold update. rewrite Hr. eexists. split; [done|].
  split; [done|]. split.
  - repeat split. simpl. apply Forall2_same_length_lookup_2.
    + by rewrite length_insert.
    + intros i x y Hx Hy. destruct (decide (i = r)) as [->|Hne].
      * rewrite list_lookup_insert_eq in Hy by by eapply lookup_lt_Some.
        rewrite Hr in Hx. injection Hx as <-. injection Hy as <-. done.
      * rewrite list_lookup_insert_ne in Hy by done.
        rewrite Hx in Hy. injection Hy as <-.
        split; [by destruct x | done].
  - unfold completed_in. simpl.
    by rewrite list_lookup_insert_eq by by eapply lookup_lt_Some.
Qed.

Lemma for_each_app {A} (f : A → Act unit) l1 l2 w :
  for_each f (l1 ++ l2) w = (for_each f l1;; for_each f l2) w.
Proof.
  revert w. induction l1 as [|x l1 IH]; intros w; [done|].
  simpl. unfold bind at 1 2 3.
  destruct (f x w) as [[[]|e|] w1]; [|done..].
  by rewrite IH.
Qed.

Lemma for_each_completes {A} (f : A → Act unit) :
  (∀ x w o w', f x w = (o, w') → completes w w') →
  ∀ l w o w', for_each f l w = (o, w') → completes w w'.
Proof.
  intros Hf. induction l as [|x l IH]; intros w o w' H; simpl in H.
  - injection H as <- <-. apply completes_refl.
  - unfold bind in H. destruct (f x w) as [[[]|e|] w1] eqn:Hx;
      try (injection H as <- <-; by eapply Hf).
    eapply completes_trans; [by eapply Hf | by eapply IH].
Qed.

Lemma mark_complete_S depth self w :
  mark_complete (S depth) self w
  = match store w !! self with
    | Some t =>
        if forallb (completed_in w) (Todo.required_subtasks t)
        then for_each (mark_complete depth) (Todo.subtasks t)
               (set_store (<[self := Todo.with_completed true t]> (store w)) w)
        else (Raise PrerequisiteError, w)
    | None => (Raise DanglingReference, w)
    end.
Proof.
  simpl. unfold bind at 1, read at 1.
  destruct (store w !! self) as [t|] eqn:Hr; [|done].
  destruct (forallb _ _); [|done].
  destruct (update_completed w self t Hr) as (w1 & Hu & Hs & _).
  unfold bind at 1. rewrite Hu.
  unfold _complete_subtasks, bind at 1, read at 1.
  rewrite Hs, list_lookup_insert_eq by by eapply lookup_lt_Some.
  unfold Todo.subtasks. rewrite for_each_app. simpl.
  unfold update in Hu. rewrite Hr in Hu. by injection Hu as <-.
Qed.

(** A call changes nothing but [completed] flags, and only upwards,
    whatever its outcome. *)
Lemma mark_complete_completes depth :
  ∀ self w o w', mark_complete depth self w = (o, w') → completes w w'.
Proof.
  induction depth as [|depth IH]; intros self w o w' H.
  - injection H as <- <-. apply completes_refl.
  - rewrite mark_complete_S in H.
    destruct (store w !! self) as [t|] eqn:Hr;
      [|injection H as <- <-; apply completes_refl].
    destruct (forallb _ _);
      [|injection H as <- <-; apply completes_refl].
    destruct (update_completed w self t Hr) as (w1 & Hu & Hs & Hc & _).
    unfold update in Hu. rewrite Hr in Hu. injection Hu as Hw1.
    rewrite Hw1 in H. eapply completes_trans; [done|].
    by eapply for_each_completes.
Qed.

Lemma forallb_elem {A} (f : A → bool) l :
  forallb f l = true ↔ ∀ x, x ∈ l → f x = true.
Proof.
  rewrite forallb_forall. split; intros H x Hx; apply H;
    by apply list_elem_of_In.
Qed.

Lemma forallb_false_elem {A} (f : A → bool) l :
  forallb f l = false → ∃ x, x ∈ l ∧ f x = false.
Proof.
  induction l as [|x l IH]; simpl; [done|].
  destruct (f x) eqn:E; simpl.
  - intros H. destruct (IH H) as (y & Hy & Hf). exists y.
    split; [by apply list_elem_of_further | done].
  - intros _. exists x. split; [apply list_elem_of_here | done].
Qed.

(** The guard of the call itself: an incomplete required subtask stops the
    call before anything is written. *)
Lemma mark_complete_stops depth self t w c :
  store w !! self = Some t →
  c ∈ Todo.required_subtasks t → completed_in w c = false →
  mark_complete (S depth) self w = (Raise PrerequisiteError, w).
Proof.
  intros Hr Hc Hf. rewrite mark_complete_S, Hr.
  destruct (forallb _ _) eqn:E; [|done].
  rewrite forallb_elem in E. rewrite (E c Hc) in Hf. done.
Qed.

(** Past its own guard the call has set the flag, and nothing unsets it. *)
Lemma mark_complete_passed depth self t w o w' :
  store w !! self = Some t →
  forallb (completed_in w) (Todo.required_subtasks t) = true →
  mark_complete (S depth) self w = (o, w') →
  completed_in w' self = true.
Proof.
  intros Hr Hg H. rewrite mark_complete_S, Hr, Hg in H.
  destruct (update_completed w self t Hr) as (w1 & Hu & Hs & _ & Hc).
  unfold update in Hu. rewrite Hr in Hu. injection Hu as Hw1.
  rewrite Hw1 in H.
  eapply completes_completed_in; [|done].
  eapply for_each_completes; [|done].
  intros x v o' v'. apply mark_complete_completes.
Qed.

Lemma ready_S depth w :
  ∀ r, ready depth w r = true → ready (S depth) w r = true.
Proof.
  induction depth as [|depth IH]; intros r H; [done|].
  simpl in H. change (ready (S (S depth)) w r)
    with (match store w !! r with
          | Some t => forallb (completed_in w) (Todo.required_subtasks t)
                      && forallb (ready (S depth) w) (Todo.subtasks t)
          | None => false
          end).
  destruct (store w !! r) as [t|]; [|done].
  apply andb_true_iff in H as [H1 H2]. apply andb_true_iff. split; [done|].
  rewrite forallb_elem in H2. apply forallb_elem. auto.
Qed.

Lemma ready_le depth depth' w r :
  (depth ≤ depth')%nat → ready depth w r = true → ready depth' w r = true.
Proof. induction 1 as [|m _ IH]; [done|]. intros Hr. apply ready_S. auto. Qed.

Lemma for_each_ready depth w0 :
  (∀ self, ready depth w0 self = true →
     ∀ w, completes w0 w →
       ∃ w', mark_complete depth self w = (Ret tt, w') ∧ completes w w'
             ∧ ∀ d, reaches w0 self d → completed_in w' d = true) →
  ∀ l, forallb (ready depth w0) l = true →
    ∀ w, completes w0 w →
      ∃ w', for_each (mark_complete depth) l w = (Ret tt, w')
            ∧ completes w w'
            ∧ ∀ c, c ∈ l → ∀ d, reaches w0 c d → completed_in w' d = true.
Proof.
  intros Hmc. induction l as [|x l IH]; intros Hl w Hw.
  - exists w. split; [done|]. split; [apply completes_refl|].
    intros c Hc. by apply elem_of_nil in Hc.
  - simpl in Hl. apply andb_true_iff in Hl as [Hx Hl].
    destruct (Hmc x Hx w Hw) as (w1 & E1 & C1 & D1).
    destruct (IH Hl w1) as (w2 & E2 & C2 & D2);
      [by eapply completes_trans|].
    exists w2. simpl. unfold bind. rewrite E1. split; [done|].
    split; [by eapply completes_trans|].
    intros c Hc d Hd. apply elem_of_cons in Hc as [->|Hc]; [|eauto].
    eapply completes_completed_in; eauto.
Qed.

Lemma mark_complete_ready depth w0 :
  ∀ self, ready depth w0 self = true →
    ∀ w, completes w0 w →
      ∃ w', mark_complete depth self w = (Ret tt, w') ∧ completes w w'
            ∧ ∀ d, reaches w0 self d → completed_in w' d = true.
Proof.
  induction depth as [|depth IH]; intros self Hready w Hw; [done|].
  simpl in Hready.
  destruct (store w0 !! self) as [t|] eqn:Hr0; [|done].
  apply andb_true_iff in Hready as [Hreq Hsub].
  destruct (completes_lookup _ _ _ _ Hw Hr0) as (t' & Hr & E & _).
  assert (Hlists : Todo.required_subtasks t' = Todo.required_subtasks t
                   ∧ Todo.subtasks t' = Todo.subtasks t)
    by (rewrite E; by destruct t).
  destruct Hlists as [Ereq Esub].
  rewrite mark_complete_S, Hr, Ereq, Esub.
  assert (Hg : forallb (completed_in w) (Todo.required_subtasks t) = true).
  { rewrite forallb_elem in Hreq. apply forallb_elem. intros c Hc.
    eapply completes_completed_in; eauto. }
  rewrite Hg.
  destruct (update_completed w self t' Hr) as (w1 & Hu & Hs & C1 & D1).
  unfold update in Hu. rewrite Hr in Hu. injection Hu as Hw1. rewrite Hw1.
  destruct (for_each_ready depth w0 IH _ Hsub w1) as (w2 & E2 & C2 & D2);
    [by eapply completes_trans|].
  exists w2. split; [done|]. split; [by eapply completes_trans|].
  intros d Hd. inversion Hd as [|? t2 c ? Hr2 Hc Hcd]; subst.
  - by eapply completes_completed_in.
  - rewrite Hr0 in Hr2. injection Hr2 as <-. eauto.
Qed.

(** ** What the branches leave alone *)

Lemma silent_step w w' :
  store w' = store w → todos w' = todos w → trace w' = trace w →
  store w' = store w ∧ todos w' = todos w
  ∧ ∃ tr, trace w' = trace w ++ tr ∧ constructions tr = 0%nat.
Proof.
  intros ? ? Ht. repeat split; try done. exists []. by rewrite app_nil_r.
Qed.

Lemma constructions_app tr1 tr2 :
  constructions (tr1 ++ tr2) = (constructions tr1 + constructions tr2)%nat.
Proof. unfold constructions. by rewrite List.filter_app, length_app. Qed.

Lemma builds_nothing_ret {A} (a : A) : builds_nothing (ret a).
Proof. intros w o w' [= <- <-]. by apply silent_step. Qed.

Lemma builds_nothing_raise {A} e : builds_nothing (@raise A e).
Proof. intros w o w' [= <- <-]. by apply silent_step. Qed.

Lemma builds_nothing_bind {A B} (m : Act A) (k : A → Act B) :
  builds_nothing m → (∀ a, builds_nothing (k a)) → builds_nothing (bind m k).
Proof.
  intros Hm Hk w o w' H. unfold bind in H.
  destruct (m w) as [[a|e|] w1] eqn:E;
    destruct (Hm _ _ _ E) as (Hs1 & Ht1 & tr1 & Htr1 & Hc1);
    try (injection H as <- <-; repeat split; eauto).
  destruct (Hk a _ _ _ H) as (Hs2 & Ht2 & tr2 & Htr2 & Hc2).
  split; [congruence|]. split; [congruence|].
  exists (tr1 ++ tr2). split.
  - by rewrite Htr2, Htr1, app_assoc.
  - rewrite constructions_app. lia.
Qed.

Lemma builds_nothing_print line : builds_nothing (print line).
Proof.
  intros w o w' [= <- <-]. repeat split. by exists [printed line].
Qed.

Lemma builds_nothing_randint a b : builds_nothing (randint a b).
Proof.
  intros w o w' H. unfold randint in H.
  destruct (b <? a); injection H as <- <-; by apply silent_step.
Qed.

Lemma builds_nothing_select_reward p : builds_nothing (select_reward p).
Proof.
  intros w o w' H.
  destruct (select_reward_frame _ _ _ _ H) as [(?&?&_&?) _].
  by apply silent_step.
Qed.

Lemma builds_nothing_get_reward_pool fuel self modifier :
  builds_nothing (get_reward_pool fuel self modifier).
Proof.
  intros w o w' H.
  destruct (reward_loop_frame _ _ _ _ _ _ _ H) as [(?&?&_&?) _].
  by apply silent_step.
Qed.

Lemma builds_nothing_reward_branch fuel rb modifier :
  builds_nothing (reward_branch fuel rb modifier).
Proof.
  apply builds_nothing_bind; [apply builds_nothing_get_reward_pool|].
  intros [|r rs].
  - apply builds_nothing_bind;
      [apply builds_nothing_print | intros; apply builds_nothing_ret].
  - apply builds_nothing_bind; [apply builds_nothing_print | intros _].
    apply builds_nothing_bind;
      [apply builds_nothing_select_reward | intros [x|]].
    + apply builds_nothing_bind; [apply builds_nothing_print | intros _].
      apply builds_nothing_bind; intros; apply builds_nothing_ret.
    + apply builds_nothing_raise.
Qed.

Lemma builds_nothing_punishment_branch fuel pb modifier :
  builds_nothing (punishment_branch fuel pb modifier).
Proof.
  apply builds_nothing_bind; [apply builds_nothing_get_reward_pool|].
  intros rewards.
  apply builds_nothing_bind;
    [apply builds_nothing_select_reward | intros reward].
  destruct rewards as [|r rs].
  - apply builds_nothing_bind;
      [apply builds_nothing_print | intros; apply builds_nothing_ret].
  - apply builds_nothing_bind; [apply builds_nothing_print | intros _].
    destruct reward as [x|]; [|apply builds_nothing_raise].
    apply builds_nothing_bind; [apply builds_nothing_print | intros _].
    apply builds_nothing_bind; intros; apply builds_nothing_ret.
Qed.

Lemma builds_nothing_open_box fuel self key :
  builds_nothing (open_box fuel self key).
Proof.
  unfold open_box. destruct (String.eqb _ _); [|apply builds_nothing_ret].
  apply builds_nothing_bind;
    [apply builds_nothing_get_reward_pool | intros; apply builds_nothing_ret].
Qed.

(** The reward branch once its draw has returned. *)
Lemma reward_branch_run fuel rb modifier w rewards w2 :
  get_reward_pool fuel rb modifier w = (Ret rewards, w2) →
  ∃ result w',
    reward_branch fuel rb modifier w = (Ret result, w')
    ∧ match result with
      | Some r => r ∈ rewards ∧ r ∈ rewards_of (Box.pool rb)
      | None => rewards = []
      end.
Proof.
  intros H. destruct (reward_loop_frame _ _ _ _ _ _ _ H) as [_ Hmem].
  unfold reward_branch, bind at 1. rewrite H.
  destruct rewards as [|r0 rs] eqn:E; [by eexists None, _|]. rewrite <- E in *.
  unfold bind at 1, print at 1, emit at 1.
  destruct (select_reward_run rewards
              (log (printed "Opened reward box and received rewards:") w2))
    as (r & Hc & Hrun); [by rewrite E|].
  unfold bind at 1. rewrite Hrun. exists (Some r). eexists. split; [done|].
  assert (r ∈ rewards) by by eapply list_elem_of_lookup_2.
  split; [done|]. destruct (Hmem rewards eq_refl r) as [Hn|]; [done| |done].
  by apply elem_of_nil in Hn.
Qed.

(** The punishment branch once its draw has returned. *)
Lemma punishment_branch_run fuel pb modifier w rewards w2 :
  get_reward_pool fuel pb modifier w = (Ret rewards, w2) →
  ∃ result w',
    punishment_branch fuel pb modifier w = (Ret result, w')
    ∧ match result with
      | Some r => r ∈ rewards ∧ r ∈ rewards_of (Box.pool pb)
      | None => rewards = []
      end.
Proof.
  intros H. destruct (reward_loop_frame _ _ _ _ _ _ _ H) as [_ Hmem].
  unfold punishment_branch, bind at 1. rewrite H.
  destruct rewards as [|r0 rs] eqn:E; [by eexists None, _|]. rewrite <- E in *.
  destruct (select_reward_run rewards w2) as (r & Hc & Hrun); [by rewrite E|].
  unfold bind at 1. rewrite Hrun.
  exists (Some r). eexists. split; [done|].
  assert (r ∈ rewards) by by eapply list_elem_of_lookup_2.
  split; [done|]. destruct (Hmem rewards eq_refl r) as [Hn|]; [done| |done].
  by apply elem_of_nil in Hn.
Qed.

(** ** Task creation *)

Section Creation.

Context (dg : DifficultyGenerator) (qg : QualityGenerator)
        (sg : SuggestionGenerator).

Lemma create_task_S depth fuel description importance rb pb w :
  create_task (S depth) fuel description importance dg qg sg rb pb w
  = let modifier := @generate_quality qg description * (11 - importance) in
    let w1 := entered description importance dg qg w in
    if 0 <? modifier then reward_branch fuel rb modifier w1
    else
      let roll := 1 + draws w (cursor w) `mod` 10 in
      if importance <=? roll
      then punishment_branch fuel pb modifier (advance w1)
      else
        let new_description := @make_suggestion sg description in
        create_task depth fuel new_description importance dg qg sg rb pb
          (log (printed ("Suggestion made: " +:+ new_description))
             (log (called_make_suggestion description) (advance w1))).
Proof.
  cbv zeta. unfold create_task at 1; fold create_task.
  unfold bind at 1. unfold Todo_init, bind, emit, ret, alloc, add_todo, read.
  cbn [store set_store set_todos log fst snd].
  rewrite list_lookup_middle by done.
  cbn [Todo.quality].
  match goal with
  | |- context [set_todos ?a ?b] =>
      replace (set_todos a b) with (entered description importance dg qg w)
        by (unfold entered, new_todo_of, set_todos, set_store, log; simpl;
            by rewrite <- app_assoc)
  end.
  destruct (0 <? _); [done|].
  unfold randint. cbn. destruct (importance <=? _); done.
Qed.

Lemma fmap_seq_S {A} (f : nat → A) a n :
  f <$> seq (S a) n = (λ i, f (S i)) <$> seq a n.
Proof. by rewrite <- fmap_S_seq, <- list_fmap_compose. Qed.

(** The Todos an invocation leaves behind: one per attempt, in order,
    after everything that was there, and as many as Todos were
    constructed. *)
Lemma create_task_history fuel importance rb pb :
  ∀ depth description w o w',
    create_task depth fuel description importance dg qg sg rb pb w = (o, w') →
    ∃ (n : nat) (tr : list event),
      (Nat.min 1 depth ≤ n ≤ depth)%nat
      ∧ store w'
        = store w
          ++ ((λ i, new_todo_of (attempt sg description i) importance dg qg)
                <$> seq 0 n)
      ∧ todos w' = todos w ++ seq (length (store w)) n
      ∧ trace w' = trace w ++ tr ∧ constructions tr = n.
Proof.
  induction depth as [|depth IH]; intros description w o w' H.
  - injection H as <- <-. exists 0%nat, []. simpl. rewrite !app_nil_r.
    repeat split; lia.
  - rewrite create_task_S in H. cbv zeta in H.
    assert (Hone : ∀ v,
              store v = store (entered description importance dg qg w)
              ∧ todos v = todos (entered description importance dg qg w)
              ∧ (∃ tr, trace v
                       = trace (entered description importance dg qg w) ++ tr
                       ∧ constructions tr = 0%nat) →
              ∃ tr,
                store v = store w
                  ++ ((λ i, new_todo_of (attempt sg description i)
                              importance dg qg) <$> seq 0 1)
                ∧ todos v = todos w ++ seq (length (store w)) 1
                ∧ trace v = trace w ++ tr ∧ constructions tr = 1%nat).
    { intros v (-> & -> & tr & -> & Hc).
      exists ([called_generate_difficulty description;
               called_generate_quality description] ++ tr).
      split; [done|]. split; [done|]. split; [by rewrite app_assoc|].
      rewrite constructions_app, Hc. done. }
    destruct (0 <? _).
    { apply builds_nothing_reward_branch, Hone in H as (tr & ?).
      exists 1%nat, tr. split; [lia | done]. }
    destruct (importance <=? _).
    { apply builds_nothing_punishment_branch in H.
      change (store (advance ?v)) with (store v) in H.
      change (todos (advance ?v)) with (todos v) in H.
      change (trace (advance ?v)) with (trace v) in H.
      apply Hone in H as (tr & ?).
      exists 1%nat, tr. split; [lia | done]. }
    apply IH in H as (n & tr & Hn & Hs & Ht & Htr & Hc).
    change (store (log _ (log _ (advance (entered _ _ _ _ w)))))
      with (store w ++ [new_todo_of description importance dg qg]) in Hs, Ht.
    change (todos (log _ (log _ (advance (entered _ _ _ _ w)))))
      with (todos w ++ [length (store w)]) in Ht.
    change (trace (log ?p (log ?q (advance (entered _ _ _ _ w)))))
      with ((trace (entered description importance dg qg w) ++ [q]) ++ [p])
      in Htr.
    exists (S n),
      ([called_generate_difficulty description;
        called_generate_quality description;
        called_make_suggestion description;
        printed ("Suggestion made: " +:+ @make_suggestion sg description)]
       ++ tr).
    split; [lia|].
    rewrite Hs, Ht, length_app, <- !app_assoc.
    change (seq 0 (S n)) with (0%nat :: seq 1 n).
    rewrite fmap_cons, fmap_seq_S. split; [|split; [|split]].
    + f_equal. simpl. f_equal.
      apply list_fmap_ext. intros i x _. unfold attempt.
      by rewrite <- Nat.iter_succ_r.
    + f_equal. simpl. do 2 f_equal. lia.
    + rewrite Htr. unfold entered. simpl. by rewrite <- !app_assoc.
    + rewrite constructions_app, Hc. done.
Qed.

End Creation.

(** * The claims *)

(** C1 (amended).  A required subtask with [completed == false] makes
    [Todo.mark_complete] fail with the incomplete-prerequisite error
    before anything is written; and the call fails with that error and
    leaves the Todo's [completed] flag false if and only if the flag was
    false before and at least one required subtask has
    [completed == false]. *)
Theorem mark_complete_prerequisite depth self t w :
  store w !! self = Some t →
  let incomplete :=
    ∃ c, c ∈ Todo.required_subtasks t ∧ completed_in w c = false in
  (incomplete → mark_complete (S depth) self w = (Raise PrerequisiteError, w))
  ∧ (fst (mark_complete (S depth) self w) = Raise PrerequisiteError
     ∧ completed_in (snd (mark_complete (S depth) self w)) self = false
     ↔ Todo.completed t = false ∧ incomplete).
Proof.
  intros Hr incomplete.
  assert (Hstop : incomplete →
            mark_complete (S depth) self w = (Raise PrerequisiteError, w)).
  { intros (c & Hc & Hf). by eapply mark_complete_stops. }
  assert (Hself : completed_in w self = Todo.completed t)
    by (unfold completed_in; by rewrite Hr).
  split; [done|]. split.
  - intros [Hfail Hflag].
    destruct (forallb (completed_in w) (Todo.required_subtasks t)) eqn:Hg.
    + destruct (mark_complete (S depth) self w) as [o w'] eqn:E.
      simpl in Hflag.
      rewrite (mark_complete_passed _ _ _ _ _ _ Hr Hg E) in Hflag. done.
    + assert (Hi : incomplete) by by apply forallb_false_elem.
      rewrite (Hstop Hi) in Hflag. simpl in Hflag. split; congruence.
  - intros [Hc Hi]. rewrite (Hstop Hi). simpl. split; congruence.
Qed.

Lemma mark_complete_prerequisite_witness :
  store family_world !! 1%nat
  = Some (Todo.mk "optional" 1 1 0 None false [2%nat] [] None)
  ∧ completed_in family_world 2 = false
  ∧ mark_complete 3 1 family_world = (Raise PrerequisiteError, family_world).
Proof.
  split; [reflexivity|]. split; [reflexivity|].
  refine (proj1 (mark_complete_prerequisite 2 1
                   (Todo.mk "optional" 1 1 0 None false [2%nat] [] None)
                   family_world _) _).
  - reflexivity.
  - exists 2%nat. split; [apply list_elem_of_here | reflexivity].
Defined.

(** C1 as stated fails.  A call can fail with the incomplete-prerequisite
    error after it has set the Todo's own flag: in [family_world] the
    parent has no required subtask at all, and the error comes from its
    optional subtask.  And a required subtask with [completed == false]
    does not mean the flag is false after the failure: in [late_world] it
    was true before and stays true. *)
Lemma mark_complete_fails_after_writing :
  (store family_world !! 0%nat
   = Some (Todo.mk "parent" 1 1 0 None false [] [1%nat] None)
   ∧ fst (mark_complete 5 0 family_world) = Raise PrerequisiteError
   ∧ store (snd (mark_complete 5 0 family_world)) !! 0%nat
     = Some (Todo.mk "parent" 1 1 0 None true [] [1%nat] None))
  ∧ (store late_world !! 0%nat
     = Some (Todo.mk "parent" 1 1 0 None true [1%nat] [] None)
     ∧ completed_in late_world 1 = false
     ∧ fst (mark_complete 5 0 late_world) = Raise PrerequisiteError
     ∧ completed_in (snd (mark_complete 5 0 late_world)) 0 = true).
Proof. vm_compute. done. Qed.

(** C2 (amended).  When the subtasks of a Todo nest finitely deep and the
    Todo and every Todo below it, through required or optional subtasks,
    have all their required subtasks completed, [Todo.mark_complete]
    succeeds for every sufficient depth, and afterwards the Todo and all
    its required and optional subtasks, transitively, are completed; the
    call changes nothing but [completed] flags. *)
Theorem mark_complete_family depth self w :
  ready depth w self = true →
  ∀ depth', (depth ≤ depth')%nat →
    ∃ w', mark_complete depth' self w = (Ret tt, w')
          ∧ completes w w'
          ∧ ∀ d, reaches w self d → completed_in w' d = true.
Proof.
  intros Hready depth' Hle.
  apply (mark_complete_ready depth' w self); [|apply completes_refl].
  by eapply ready_le.
Qed.

Lemma mark_complete_family_witness :
  ∃ w', mark_complete 2 0 tidy_world = (Ret tt, w')
        ∧ completes tidy_world w'
        ∧ ∀ d, reaches tidy_world 0%nat d → completed_in w' d = true.
Proof.
  apply (mark_complete_family 2 0 tidy_world); [reflexivity | lia].
Defined.

(** C2 as stated fails: every required subtask of the parent is completed
    (it has none), yet the call raises, because the optional subtask's own
    required subtask is not completed; the optional subtask stays
    incomplete. *)
Lemma mark_complete_optional_guarded :
  (∃ t, store family_world !! 0%nat = Some t
        ∧ forallb (completed_in family_world) (Todo.required_subtasks t) = true
        ∧ Todo.optional_subtasks t = [1%nat])
  ∧ fst (mark_complete 5 0 family_world) = Raise PrerequisiteError
  ∧ completed_in (snd (mark_complete 5 0 family_world)) 1 = false.
Proof. split; [eexists; split; [reflexivity|done] | by vm_compute]. Qed.

(** C3.  Over a non-empty pool, a call of [Box.get_reward_pool] that
    returns gives exactly [pool_size] rewards, all members of the pool:
    they are, in order, the candidates of those iterations whose roll in
    [1, 1000] plus the modifier reached the candidate's value, every
    iteration taking two draws.  Over an empty pool an iteration is
    skipped: it takes no draw and adds nothing. *)
Theorem get_reward_pool_exact fuel self modifier rewards w rs w' :
  Box.pool self = RandomPool rewards → rewards ≠ [] →
  0 ≤ Box.pool_size self →
  get_reward_pool fuel self modifier w = (Ret rs, w') →
  Z.of_nat (length rs) = Box.pool_size self
  ∧ (∀ r, r ∈ rs → r ∈ rewards)
  ∧ (∃ n : nat,
       cursor w' = (cursor w + 2 * n)%nat
       ∧ rs = omap (accepted_at (draws w) rewards modifier (cursor w))
                   (seq 0 n))
  ∧ only_draws w w'
  ∧ (∀ k acc v,
       reward_loop (S fuel) (Box.mk k (RandomPool [])) modifier acc v
       = if Z.of_nat (length acc) <? k
         then reward_loop fuel (Box.mk k (RandomPool [])) modifier acc v
         else (Ret acc, v)).
Proof.
  intros Hpool Hne Hk H.
  destruct (reward_loop_accepts fuel self modifier rewards Hpool Hne
              [] w rs w' H) as (n & Hcur & Hrs & Hlen).
  destruct (reward_loop_frame _ _ _ _ _ _ _ H) as [Hd Hmem].
  split; [simpl in Hlen; lia|]. split.
  { intros r Hr. destruct (Hmem rs eq_refl r Hr) as [Hn|Hin].
    - by apply elem_of_nil in Hn.
    - by rewrite Hpool in Hin. }
  split; [by exists n|]. split; [done|].
  intros k acc v. simpl. by destruct (Z.of_nat (length acc) <? k).
Qed.

Lemma get_reward_pool_exact_witness :
  get_reward_pool 3 reward_box 252 (fresh_world 499)
  = (Ret [reward2; reward2; reward2], mkWorld [] [] (λ _, 499) 6 [])
  ∧ Z.of_nat (length [reward2; reward2; reward2]) = 3
  ∧ ∀ r, r ∈ [reward2; reward2; reward2] → r ∈ [reward1; reward2; reward3].
Proof.
  split; [reflexivity|].
  destruct (get_reward_pool_exact 3 reward_box 252 [reward1; reward2; reward3]
              (fresh_world 499) [reward2; reward2; reward2]
              (mkWorld [] [] (λ _, 499) 6 []))
    as (Hlen & Hmem & _); [reflexivity | done | simpl; lia | reflexivity |].
  by split.
Defined.

(** C4.  [LootBox.open_box] compares the two key names for equality: when
    they differ it returns [None], which is not the empty list, in an
    unchanged world, so without a draw; when they are equal it does what
    [get_reward_pool] does with modifier 0 and returns its list. *)
Theorem open_box_checks_key fuel self key w :
  open_box fuel self key w
  = (if decide (Reward.key_name key = LootBox.key_name self)
     then
       let (o, w') := get_reward_pool fuel (LootBox.box self) 0 w in
       (match o with
        | Ret rewards => Ret (Some rewards)
        | Raise e => Raise e
        | OutOfFuel => OutOfFuel
        end, w')
     else (Ret None, w))
  ∧ @None (list Reward.t) ≠ Some [].
Proof.
  split; [|done]. unfold open_box.
  destruct (String.eqb_spec (Reward.key_name key) (LootBox.key_name self))
    as [E|E]; destruct (decide _) as [E'|E']; try done.
  unfold bind. by destruct (get_reward_pool _ _ _ _) as [[rs|e|] w'].
Qed.

(** C8.  With a positive [pool_size], a non-empty pool and every value
    above [1000 + modifier], [Box.get_reward_pool] returns for no amount
    of fuel: each iteration takes its two draws and accepts nothing. *)
Theorem get_reward_pool_starves fuel self modifier rewards w :
  0 < Box.pool_size self →
  Box.pool self = RandomPool rewards → rewards ≠ [] →
  Forall (λ r, 1000 + modifier < Reward.value r) rewards →
  fst (get_reward_pool fuel self modifier w) = OutOfFuel
  ∧ cursor (snd (get_reward_pool fuel self modifier w))
    = (cursor w + 2 * fuel)%nat.
Proof.
  intros Hk Hpool Hne Hall.
  destruct (reward_loop_starves self modifier rewards Hk Hpool Hne Hall fuel w)
    as (w' & E & Hcur).
  unfold get_reward_pool. by rewrite E.
Qed.

Lemma get_reward_pool_starves_witness :
  fst (get_reward_pool 50 vault 0 (fresh_world 999)) = OutOfFuel
  ∧ cursor (snd (get_reward_pool 50 vault 0 (fresh_world 999))) = 100%nat.
Proof.
  apply (get_reward_pool_starves 50 vault 0
           [Reward.Key 2000 "Crown" "crown"] (fresh_world 999)).
  - reflexivity.
  - reflexivity.
  - done.
  - repeat constructor.
Defined.

(** C9.  [Todo.__init__] settles [difficulty] and [quality] once, when
    the Todo is built: the explicit argument if there is one, otherwise
    the generator's value for the description, otherwise 1 for difficulty
    and 0 for quality; a generator is called, once, only when the explicit
    argument is absent. *)
Theorem Todo_init_precedence description importance difficulty quality
    due_datetime (qg : option QualityGenerator)
    (dg : option DifficultyGenerator) modify_score_function w :
  let d := match difficulty, dg with
           | Some d, _ => d
           | None, Some g => @generate_difficulty g description
           | None, None => 1
           end in
  let q := match quality, qg with
           | Some q, _ => q
           | None, Some g => @generate_quality g description
           | None, None => 0
           end in
  let calls :=
    match difficulty, dg with
    | None, Some _ => [called_generate_difficulty description]
    | _, _ => []
    end ++
    match quality, qg with
    | None, Some _ => [called_generate_quality description]
    | _, _ => []
    end in
  Todo_init description importance difficulty quality due_datetime qg dg
    modify_score_function w
  = (Ret (length (store w)),
     mkWorld (store w ++ [Todo.mk description importance d q due_datetime
                            false [] [] modify_score_function])
             (todos w) (draws w) (cursor w) (trace w ++ calls)).
Proof.
  destruct w as [s l d c tr].
  destruct difficulty as [x|], dg as [g|], quality as [y|], qg as [h|];
    unfold Todo_init, bind, emit, ret, alloc, log, set_store; simpl;
    rewrite <- ?app_assoc, ?app_nil_r; reflexivity.
Qed.

(** C10 (amended).  [LootBox.__init__] stores the list of rewards itself
    as the pool, so [open_box] with the matching key never takes a draw:
    it leaves the world as it was.  With a positive [pool_size] it raises
    on the first [select_reward] and never returns a list. *)
Theorem LootBox_never_opens name key_name pool_size rewards key fuel w :
  Reward.key_name key = key_name →
  let self := LootBox_init name key_name pool_size rewards in
  Box.pool (LootBox.box self) = plain_list rewards
  ∧ (∀ fuel', snd (open_box fuel' self key w) = w)
  ∧ (0 < pool_size →
       open_box (S fuel) self key w = (Raise AttributeError, w)
       ∧ ∀ fuel' result, fst (open_box fuel' self key w) ≠ Ret result).
Proof.
  intros Hkey self.
  assert (Hopen : ∀ n, open_box n self key w
                       = (rewards <- reward_loop n (LootBox.box self) 0 [];;
                          ret (Some rewards)) w).
  { intros n. unfold open_box, self, LootBox_init.
    cbn [LootBox.key_name]. by rewrite Hkey, String.eqb_refl. }
  assert (E0 : 0 < pool_size → open_box 0 self key w = (OutOfFuel, w)).
  { intros Hk. apply Z.ltb_lt in Hk. rewrite Hopen. unfold bind, self.
    cbn [reward_loop length LootBox_init LootBox.box Box.pool_size].
    change (Z.of_nat 0) with 0. by rewrite Hk. }
  assert (ES : 0 < pool_size →
               ∀ n, open_box (S n) self key w = (Raise AttributeError, w)).
  { intros Hk n. apply Z.ltb_lt in Hk. rewrite Hopen. unfold bind at 1, self.
    cbn [reward_loop length LootBox_init LootBox.box Box.pool_size Box.pool].
    change (Z.of_nat 0) with 0. rewrite Hk.
    unfold bind. by rewrite select_reward_list. }
  split; [done|]. split.
  - intros n. destruct (Z.ltb_spec 0 pool_size) as [Hk|Hk].
    + destruct n; [by rewrite E0 | by rewrite ES].
    + apply Z.ltb_ge in Hk. rewrite Hopen. unfold bind, self.
      destruct n;
        cbn [reward_loop length LootBox_init LootBox.box Box.pool_size];
        change (Z.of_nat 0) with 0; by rewrite Hk.
  - intros Hk. split; [by apply ES|].
    intros [|n] result; [by rewrite E0 | by rewrite ES].
Qed.

Lemma LootBox_never_opens_witness :
  Reward.key_name reward1 = "reward_key_1" ∧ 0 < 3
  ∧ open_box 7 (LootBox_init "Chest" "reward_key_1" 3
                  [reward1; reward2; reward3]) reward1 (fresh_world 499)
    = (Raise AttributeError, fresh_world 499).
Proof.
  split; [reflexivity|]. split; [reflexivity|].
  refine (proj1 (proj2 (proj2 (LootBox_never_opens "Chest" "reward_key_1" 3
                                 [reward1; reward2; reward3] reward1 6
                                 (fresh_world 499) _)) _)).
  - reflexivity.
  - reflexivity.
Defined.

(** C10 as stated fails: a [LootBox] built by its constructor with
    [pool_size] 0 never enters the loop, so with the matching key
    [open_box] returns a list, the empty one. *)
Lemma LootBox_opens_empty :
  Reward.key_name reward1 = "reward_key_1"
  ∧ open_box 7 (LootBox_init "Chest" "reward_key_1" 0
                  [reward1; reward2; reward3]) reward1 (fresh_world 499)
    = (Ret (Some []), fresh_world 499).
Proof. split; reflexivity. Qed.

(** C5.  When the modifier [quality * (11 - importance)] is positive and
    the draw from the reward box returns, [create_task] returns a reward
    of that draw, hence a member of the reward box's pool, or "no reward"
    when the draw is empty.  The punishment box plays no part and there is
    no further attempt: whatever the punishment box and the recursion
    budget, the result is the same, and one Todo has been appended. *)
Theorem create_task_rewards depth fuel description importance
    (dg : DifficultyGenerator) (qg : QualityGenerator)
    (sg : SuggestionGenerator) rb pb w rewards w2 :
  let modifier := @generate_quality qg description * (11 - importance) in
  0 < modifier →
  get_reward_pool fuel rb modifier (entered description importance dg qg w)
  = (Ret rewards, w2) →
  ∃ result w',
    create_task (S depth) fuel description importance dg qg sg rb pb w
    = (Ret result, w')
    ∧ match result with
      | Some r => r ∈ rewards ∧ r ∈ rewards_of (Box.pool rb)
      | None => rewards = []
      end
    ∧ store w' = store w ++ [new_todo_of description importance dg qg]
    ∧ todos w' = todos w ++ [length (store w)]
    ∧ ∀ depth' pb',
        create_task (S depth') fuel description importance dg qg sg rb pb' w
        = (Ret result, w').
Proof.
  intros modifier Hpos Hdraw.
  assert (Hg : (0 <? modifier) = true) by by apply Z.ltb_lt.
  destruct (reward_branch_run _ _ _ _ _ _ Hdraw) as (result & w' & Hrun & Hres).
  assert (Hall : ∀ depth' pb',
            create_task (S depth') fuel description importance dg qg sg rb pb' w
            = (Ret result, w')).
  { intros depth' pb'. rewrite create_task_S. cbv zeta.
    fold modifier. by rewrite Hg. }
  exists result, w'. split; [apply Hall|]. split; [done|].
  destruct (builds_nothing_reward_branch _ _ _ _ _ _ Hrun) as (Hs & Ht & _).
  by rewrite Hs, Ht.
Qed.

Lemma create_task_rewards_witness :
  ∃ result w',
    create_task 1 3 "Main task" 5 TestDifficultyGenerator
      TestQualityGenerator SimpleSuggestionGenerator reward_box
      punishment_box (fresh_world 499)
    = (Ret result, w')
    ∧ match result with
      | Some r => r ∈ [reward2; reward2; reward2]
                  ∧ r ∈ [reward1; reward2; reward3]
      | None => [reward2; reward2; reward2] = []
      end
    ∧ store w' = [Todo.mk "Main task" 5 50 42 None false [] [] None]
    ∧ todos w' = [0%nat]
    ∧ ∀ depth' pb',
        create_task (S depth') 3 "Main task" 5 TestDifficultyGenerator
          TestQualityGenerator SimpleSuggestionGenerator reward_box pb'
          (fresh_world 499)
        = (Ret result, w').
Proof.
  refine (create_task_rewards 0 3 "Main task" 5 TestDifficultyGenerator
            TestQualityGenerator SimpleSuggestionGenerator reward_box
            punishment_box (fresh_world 499) [reward2; reward2; reward2]
            (mkWorld [Todo.mk "Main task" 5 50 42 None false [] [] None]
               [0%nat] (λ _, 499) 6
               [called_generate_difficulty "Main task";
                called_generate_quality "Main task"]) _ _).
  - reflexivity.
  - reflexivity.
Defined.

(** C6.  When the modifier is not positive, [create_task] draws one
    number in [1, 10].  If it is at least [importance], the punishment box
    is drawn from with that same modifier.  Otherwise [create_task] is
    called again with [make_suggestion(description)] and everything else
    as it was, and unless the recursion budget ends there, the second
    Todo, built from the suggested description, follows the first in
    [todos]. *)
Theorem create_task_nonpositive depth fuel description importance
    (dg : DifficultyGenerator) (qg : QualityGenerator)
    (sg : SuggestionGenerator) rb pb w :
  let modifier := @generate_quality qg description * (11 - importance) in
  let w1 := entered description importance dg qg w in
  let roll := 1 + draws w (cursor w) `mod` 10 in
  let run := create_task (S depth) fuel description importance dg qg sg
               rb pb w in
  modifier ≤ 0 →
  1 ≤ roll ≤ 10
  ∧ randint 1 10 w1 = (Ret roll, advance w1)
  ∧ cursor (advance w1) = S (cursor w)
  ∧ (importance ≤ roll →
       run = punishment_branch fuel pb modifier (advance w1)
       ∧ ∀ rewards w2,
           get_reward_pool fuel pb modifier (advance w1) = (Ret rewards, w2) →
           ∃ result w',
             run = (Ret result, w')
             ∧ match result with
               | Some r => r ∈ rewards ∧ r ∈ rewards_of (Box.pool pb)
               | None => rewards = []
               end)
  ∧ (roll < importance →
       run = create_task depth fuel (@make_suggestion sg description)
               importance dg qg sg rb pb
               (log (printed ("Suggestion made: "
                              +:+ @make_suggestion sg description))
                  (log (called_make_suggestion description) (advance w1)))
       ∧ (depth ≠ 0%nat →
            store (snd run) !! S (length (store w))
            = Some (new_todo_of (@make_suggestion sg description)
                      importance dg qg)
            ∧ ∃ rest,
                todos (snd run)
                = todos w ++ [length (store w); S (length (store w))]
                  ++ rest)).
Proof.
  intros modifier w1 roll run Hmod.
  assert (Hg : (0 <? modifier) = false) by by apply Z.ltb_ge.
  assert (Hroll : 1 ≤ roll ≤ 10).
  { subst roll. pose proof (Z.mod_pos_bound (draws w (cursor w)) 10).
    revert H. generalize (draws w (cursor w) `mod` 10). intros z Hz. lia. }
  split; [done|]. split; [done|]. split; [done|].
  assert (Hrun : run = if importance <=? roll
                       then punishment_branch fuel pb modifier (advance w1)
                       else create_task depth fuel
                              (@make_suggestion sg description) importance
                              dg qg sg rb pb
                              (log (printed ("Suggestion made: "
                                      +:+ @make_suggestion sg description))
                                 (log (called_make_suggestion description)
                                    (advance w1)))).
  { subst run. rewrite create_task_S. cbv zeta. fold modifier.
    by rewrite Hg. }
  clearbody run roll modifier.
  split.
  { intros Hle. apply Z.leb_le in Hle. rewrite Hle in Hrun.
    split; [done|]. intros rewards w2 Hdraw. rewrite Hrun.
    by eapply punishment_branch_run. }
  intros Hlt.
  assert (Hnext : run = create_task depth fuel
                          (@make_suggestion sg description) importance
                          dg qg sg rb pb
                          (log (printed ("Suggestion made: "
                                  +:+ @make_suggestion sg description))
                             (log (called_make_suggestion description)
                                (advance w1)))).
  { rewrite Hrun. apply Z.leb_gt in Hlt. by rewrite Hlt. }
  split; [done|]. intros Hdepth. rewrite Hnext.
  destruct (create_task depth _ _ _ _ _ _ _ _ _) as [o w'] eqn:E.
  apply create_task_history in E as (n & tr & Hn & Hs & Ht & _).
  change (store (log _ (log _ (advance w1))))
    with (store w ++ [new_todo_of description importance dg qg]) in Hs, Ht.
  change (todos (log _ (log _ (advance w1))))
    with (todos w ++ [length (store w)]) in Ht.
  destruct n as [|n]; [lia|]. simpl snd.
  change (seq 0 (S n)) with (0%nat :: seq 1 n) in Hs.
  rewrite fmap_cons in Hs. rewrite length_app in Ht. simpl in Ht.
  split.
  - rewrite Hs.
    replace (S (length (store w)))
      with (length (store w ++ [new_todo_of description importance dg qg]))
      by (rewrite length_app; simpl; lia).
    by rewrite list_lookup_middle.
  - exists (seq (S (length (store w) + 1)) n). rewrite Ht, <- app_assoc.
    simpl. do 3 f_equal. lia.
Qed.

(** The scenario of the specification: importance 11, quality 0, a roll
    of 10. *)
Lemma create_task_nonpositive_witness :
  let run := create_task 2 3 "Main task" 11 TestDifficultyGenerator
               ZeroQualityGenerator SimpleSuggestionGenerator reward_box
               punishment_box (fresh_world 9) in
  1 + draws (fresh_world 9) 0%nat `mod` 10 = 10
  ∧ store (snd run) !! 1%nat
    = Some (Todo.mk "Main task (updated)" 11 50 0 None false [] [] None)
  ∧ ∃ rest, todos (snd run) = [0%nat; 1%nat] ++ rest.
Proof.
  intros run. split; [reflexivity|].
  refine (proj2 (proj2 (proj2 (proj2 (proj2
            (create_task_nonpositive 1 3 "Main task" 11
               TestDifficultyGenerator ZeroQualityGenerator
               SimpleSuggestionGenerator reward_box punishment_box
               (fresh_world 9) _)))) _) _).
  - by vm_compute.
  - reflexivity.
  - done.
Defined.

(** C7.  An invocation of [create_task] leaves [todos] as it was, followed
    by one new Todo per attempt, the attempts being the invocation and
    its recursive invocations on the suggestion path: as many Todos are
    appended as were constructed.  [add_todo] appends its argument;
    completing Todos, drawing from a box, opening a loot box and adding a
    subtask leave the list as it is.  So the list before is always a
    prefix of the list after. *)
Theorem todos_append_only depth fuel description importance
    (dg : DifficultyGenerator) (qg : QualityGenerator)
    (sg : SuggestionGenerator) rb pb w :
  let w' := snd (create_task depth fuel description importance dg qg sg
                   rb pb w) in
  (∃ (n : nat) (tr : list event),
     (Nat.min 1 depth ≤ n ≤ depth)%nat
     ∧ store w'
       = store w
         ++ ((λ i, new_todo_of (attempt sg description i) importance dg qg)
               <$> seq 0 n)
     ∧ todos w' = todos w ++ seq (length (store w)) n
     ∧ trace w' = trace w ++ tr ∧ constructions tr = n)
  ∧ (∀ todo, todos (snd (add_todo todo w)) = todos w ++ [todo])
  ∧ (∀ d self, todos (snd (mark_complete d self w)) = todos w)
  ∧ (∀ self modifier,
       todos (snd (get_reward_pool fuel self modifier w)) = todos w)
  ∧ (∀ self key, todos (snd (open_box fuel self key w)) = todos w)
  ∧ (∀ self subtask required,
       todos (snd (add_subtask self subtask required w)) = todos w).
Proof.
  intros w'. split.
  { subst w'. destruct (create_task depth _ _ _ _ _ _ _ _ _) as [o v] eqn:E.
    by eapply create_task_history. }
  split; [done|]. split.
  { intros d self. destruct (mark_complete d self w) as [o v] eqn:E.
    by destruct (mark_complete_completes _ _ _ _ _ E) as (? & _). }
  split.
  { intros self modifier.
    destruct (get_reward_pool fuel self modifier w) as [o v] eqn:E.
    by destruct (builds_nothing_get_reward_pool _ _ _ _ _ _ E) as (_ & ? & _). }
  split.
  { intros self key. destruct (open_box fuel self key w) as [o v] eqn:E.
    by destruct (builds_nothing_open_box _ _ _ _ _ _ E) as (_ & ? & _). }
  intros self subtask required. unfold add_subtask, update.
  by destruct required, (store w !! self).
Qed.

(** * Further properties *)

(** ** Pools and boxes *)

(** X1.  [RandomPool.select_reward] over an empty list returns "no reward"
    without a draw; over a non-empty list it takes exactly one draw and
    returns the member at the index drawn, which is always in range. *)
Theorem select_reward_one_draw rewards w :
  match rewards with
  | [] => select_reward (RandomPool rewards) w = (Ret None, w)
  | _ :: _ =>
      ∃ r, r ∈ rewards
           ∧ candidate_at (draws w) rewards (cursor w) = Some r
           ∧ select_reward (RandomPool rewards) w = (Ret (Some r), advance w)
  end.
Proof.
  destruct rewards as [|r0 rs] eqn:E; [done|]. rewrite <- E.
  destruct (select_reward_run rewards w) as (r & Hc & Hrun); [by rewrite E|].
  exists r. split; [by eapply list_elem_of_lookup_2 | done].
Qed.

Lemma reward_loop_nothing fuel self modifier w :
  Box.pool_size self ≤ 0 → reward_loop fuel self modifier [] w = (Ret [], w).
Proof.
  intros Hk. apply Z.ltb_ge in Hk.
  destruct fuel; cbn [reward_loop length]; change (Z.of_nat 0) with 0;
    by rewrite Hk.
Qed.

Lemma reward_loop_empty_pool fuel self modifier w :
  0 < Box.pool_size self → Box.pool self = RandomPool [] →
  reward_loop fuel self modifier [] w = (OutOfFuel, w).
Proof.
  intros Hk Hpool. apply Z.ltb_lt in Hk.
  induction fuel as [|fuel IH];
    cbn [reward_loop length]; change (Z.of_nat 0) with 0; rewrite Hk;
    [done|].
  unfold bind. rewrite Hpool, select_reward_empty. exact IH.
Qed.

(** X2.  With [pool_size <= 0] the loop of [Box.get_reward_pool] is never
    entered: the call returns the empty list without a draw, whatever the
    pool object.  So a [LootBox] built by its constructor with such a
    [pool_size] opens, with the matching key, to the empty list. *)
Theorem get_reward_pool_nothing_to_fill fuel self modifier w :
  Box.pool_size self ≤ 0 →
  get_reward_pool fuel self modifier w = (Ret [], w)
  ∧ ∀ name key_name rewards key,
      Reward.key_name key = key_name →
      open_box fuel
        (LootBox_init name key_name (Box.pool_size self) rewards) key w
      = (Ret (Some []), w).
Proof.
  intros Hk. split; [by apply reward_loop_nothing|].
  intros name key_name rewards key Hkey. unfold open_box, LootBox_init.
  cbn [LootBox.key_name LootBox.box]. rewrite Hkey, String.eqb_refl.
  unfold bind, get_reward_pool. by rewrite reward_loop_nothing.
Qed.

Lemma get_reward_pool_nothing_to_fill_witness :
  Box.pool_size (Box.mk 0 reward_pool) ≤ 0
  ∧ get_reward_pool 5 (Box.mk 0 reward_pool) 0 (fresh_world 7)
    = (Ret [], fresh_world 7).
Proof.
  split; [done|].
  apply (get_reward_pool_nothing_to_fill 5 (Box.mk 0 reward_pool) 0
           (fresh_world 7)).
  done.
Defined.

(** X3.  Over an empty [RandomPool] with a positive [pool_size], every
    iteration is skipped: [Box.get_reward_pool] never returns and never
    takes a draw. *)
Theorem get_reward_pool_empty_pool fuel self modifier w :
  0 < Box.pool_size self → Box.pool self = RandomPool [] →
  get_reward_pool fuel self modifier w = (OutOfFuel, w).
Proof. apply reward_loop_empty_pool. Qed.

Lemma get_reward_pool_empty_pool_witness :
  get_reward_pool 40 (Box.mk 2 (RandomPool [])) 0 (fresh_world 7)
  = (OutOfFuel, fresh_world 7).
Proof.
  apply (get_reward_pool_empty_pool 40 (Box.mk 2 (RandomPool [])) 0
           (fresh_world 7)); reflexivity.
Defined.

Lemma accepted_at_within_reach d rewards modifier c j r :
  accepted_at d rewards modifier c j = Some r →
  Reward.value r ≤ 1000 + modifier.
Proof.
  unfold accepted_at, roll_at.
  destruct (candidate_at d rewards (c + 2 * j)) as [x|]; [|done].
  destruct (Z.leb_spec (Reward.value x)
              (1 + d (c + 2 * j + 1)%nat `mod` 1000 + modifier))
    as [Hle|]; [|done].
  intros [= <-].
  pose proof (Z.mod_pos_bound (d (c + 2 * j + 1)%nat) 1000) as Hb.
  revert Hle Hb. generalize (d (c + 2 * j + 1)%nat `mod` 1000).
  intros z ? ?. lia.
Qed.

(** X4.  [Box.get_reward_pool] never hands out a reward that no roll
    could reach: every reward it returns has a value of at most
    [1000 + modifier]. *)
Theorem get_reward_pool_within_reach fuel self modifier w rs w' :
  get_reward_pool fuel self modifier w = (Ret rs, w') →
  ∀ r, r ∈ rs → Reward.value r ≤ 1000 + modifier.
Proof.
  intros H r Hr.
  destruct (Box.pool self) as [rewards|rewards] eqn:Hpool.
  - destruct (decide (rewards = [])) as [->|Hne].
    + destruct (Z.ltb_spec 0 (Box.pool_size self)) as [Hk|Hk].
      * unfold get_reward_pool in H.
        by rewrite (reward_loop_empty_pool _ _ _ _ Hk Hpool) in H.
      * unfold get_reward_pool in H.
        rewrite (reward_loop_nothing fuel self modifier w Hk) in H.
        injection H as <- <-. by apply elem_of_nil in Hr.
    + destruct (reward_loop_accepts fuel self modifier rewards Hpool Hne
                  [] w rs w' H) as (n & _ & -> & _).
      simpl in Hr. apply list_elem_of_omap in Hr as (j & _ & Hj).
      by eapply accepted_at_within_reach.
  - destruct (Z.ltb_spec 0 (Box.pool_size self)) as [Hk|Hk].
    + apply Z.ltb_lt in Hk. unfold get_reward_pool in H.
      destruct fuel; cbn [reward_loop length] in H;
        change (Z.of_nat 0) with 0 in H; rewrite Hk in H; [done|].
      unfold bind in H. by rewrite Hpool, select_reward_list in H.
    + unfold get_reward_pool in H.
      rewrite (reward_loop_nothing fuel self modifier w Hk) in H.
      injection H as <- <-. by apply elem_of_nil in Hr.
Qed.

Lemma get_reward_pool_within_reach_witness :
  get_reward_pool 3 reward_box 252 (fresh_world 499)
  = (Ret [reward2; reward2; reward2], mkWorld [] [] (λ _, 499) 6 [])
  ∧ Reward.value reward2 ≤ 1000 + 252.
Proof.
  split; [reflexivity|].
  apply (get_reward_pool_within_reach 3 reward_box 252 (fresh_world 499)
           [reward2; reward2; reward2] (mkWorld [] [] (λ _, 499) 6 [])).
  - reflexivity.
  - apply list_elem_of_here.
Defined.

(** X5.  When every value of a non-empty pool is at most [1 + modifier],
    every candidate is accepted: [Box.get_reward_pool] returns after
    exactly [pool_size] iterations, having taken two draws for each, and
    its [j]-th reward is the candidate of the [j]-th iteration. *)
Theorem get_reward_pool_fills_at_once fuel self modifier rewards w :
  Box.pool self = RandomPool rewards → rewards ≠ [] →
  0 ≤ Box.pool_size self →
  Forall (λ r, Reward.value r ≤ 1 + modifier) rewards →
  (Z.to_nat (Box.pool_size self) ≤ fuel)%nat →
  ∃ rs w',
    get_reward_pool fuel self modifier w = (Ret rs, w')
    ∧ cursor w' = (cursor w + 2 * Z.to_nat (Box.pool_size self))%nat
    ∧ (Some <$> rs)
      = (λ j, candidate_at (draws w) rewards (cursor w + 2 * j)%nat)
          <$> seq 0 (Z.to_nat (Box.pool_size self)).
Proof.
  intros Hpool Hne Hk Hall Hfuel.
  destruct (reward_loop_terminates self modifier rewards Hpool Hne Hall
              fuel [] w) as (rs & w' & H); [simpl; lia|].
  exists rs, w'. split; [done|].
  destruct (reward_loop_accepts fuel self modifier rewards Hpool Hne
              [] w rs w' H) as (n & Hcur & Hrs & Hlen).
  simpl in Hrs, Hlen.
  assert (Hacc : ∀ j, ∃ r, candidate_at (draws w) rewards (cursor w + 2 * j)
                           = Some r
                           ∧ accepted_at (draws w) rewards modifier
                               (cursor w) j = Some r).
  { intros j. unfold accepted_at, candidate_at.
    assert (Hlen' : 0 < Z.of_nat (length rewards))
      by (destruct rewards; [done | simpl; lia]).
    pose proof (Z.mod_pos_bound (draws w (cursor w + 2 * j)%nat) _ Hlen')
      as Hb.
    destruct (lookup_lt_is_Some_2 rewards
                (Z.to_nat (draws w (cursor w + 2 * j)%nat
                           `mod` Z.of_nat (length rewards)))) as [r Hr].
    { revert Hb. generalize (draws w (cursor w + 2 * j)%nat
                             `mod` Z.of_nat (length rewards)).
      intros z Hz. lia. }
    exists r. rewrite Hr. split; [done|].
    assert (Hv : Reward.value r ≤ 1 + modifier).
    { rewrite Forall_forall in Hall. apply Hall.
      by eapply list_elem_of_lookup_2. }
    clear Hb. unfold roll_at.
    pose proof (Z.mod_pos_bound (draws w (cursor w + 2 * j + 1)%nat) 1000)
      as Hb.
    destruct (Z.leb_spec (Reward.value r)
                (1 + draws w (cursor w + 2 * j + 1)%nat `mod` 1000
                 + modifier)) as [|Hlt]; [done|].
    revert Hlt Hb. generalize (draws w (cursor w + 2 * j + 1)%nat `mod` 1000).
    intros z ? ?. lia. }
  assert (Hsome : Some <$> rs
                  = (λ j, candidate_at (draws w) rewards (cursor w + 2 * j)%nat)
                      <$> seq 0 n).
  { rewrite Hrs. generalize (seq 0 n). intros l.
    induction l as [|j l IH]; [done|].
    rewrite omap_cons. destruct (Hacc j) as (r & Hc & ->).
    rewrite !fmap_cons, IH. by rewrite Hc. }
  assert (Hn : n = Z.to_nat (Box.pool_size self)).
  { apply (f_equal length) in Hsome.
    rewrite !length_fmap, length_seq in Hsome. lia. }
  subst n. split; [lia | done].
Qed.

Lemma get_reward_pool_fills_at_once_witness :
  ∃ rs w',
    get_reward_pool 3 reward_box 299 (fresh_world 5) = (Ret rs, w')
    ∧ cursor w' = 6%nat
    ∧ (Some <$> rs)
      = (λ j, candidate_at (λ _, 5) [reward1; reward2; reward3] (0 + 2 * j)%nat)
          <$> seq 0 3.
Proof.
  apply (get_reward_pool_fills_at_once 3 reward_box 299
           [reward1; reward2; reward3] (fresh_world 5)).
  - reflexivity.
  - done.
  - done.
  - repeat constructor; by vm_compute.
  - apply Nat.le_refl.
Defined.

(** ** Todos *)

(** X6.  Whatever its outcome, [Todo.mark_complete] changes nothing but
    [completed] flags, and those only from false to true: descriptions,
    scores and subtask lists of every Todo, the [todos] list and the
    random source are as before, and no Todo is lost. *)
Theorem mark_complete_only_completes depth self w :
  completes w (snd (mark_complete depth self w))
  ∧ length (store (snd (mark_complete depth self w))) = length (store w)
  ∧ ∀ r, completed_in w r = true →
         completed_in (snd (mark_complete depth self w)) r = true.
Proof.
  destruct (mark_complete depth self w) as [o w'] eqn:E. simpl.
  pose proof (mark_complete_completes _ _ _ _ _ E) as Hc.
  split; [done|]. split.
  - destruct Hc as (_ & _ & _ & _ & HF). symmetry.
    by eapply Forall2_length.
  - intros r. by apply completes_completed_in.
Qed.

Lemma settled_completed depth w r :
  settled depth w r = true → completed_in w r = true.
Proof.
  destruct depth as [|depth]; [done|]. simpl. unfold completed_in.
  destruct (store w !! r) as [t|]; [|done].
  intros H. by apply andb_true_iff in H as [? _].
Qed.

Lemma set_store_same w : set_store (store w) w = w.
Proof. by destruct w. Qed.

Lemma with_completed_same t :
  Todo.completed t = true → Todo.with_completed true t = t.
Proof. destruct t. simpl. by intros ->. Qed.

Lemma for_each_noop {A} (f : A → Act unit) l w :
  (∀ x, x ∈ l → f x w = (Ret tt, w)) → for_each f l w = (Ret tt, w).
Proof.
  induction l as [|x l IH]; intros H; [done|].
  simpl. unfold bind. rewrite (H x) by apply list_elem_of_here.
  apply IH. intros y Hy. apply H. by apply list_elem_of_further.
Qed.

Lemma mark_complete_settled depth w :
  ∀ self, settled depth w self = true →
          mark_complete depth self w = (Ret tt, w).
Proof.
  induction depth as [|depth IH]; intros self H; [done|].
  simpl in H. rewrite mark_complete_S.
  destruct (store w !! self) as [t|] eqn:Hr; [|done].
  apply andb_true_iff in H as [Hc Hsub]. rewrite forallb_elem in Hsub.
  assert (Hg : forallb (completed_in w) (Todo.required_subtasks t) = true).
  { apply forallb_elem. intros c Hc'. apply (settled_completed depth).
    apply Hsub. unfold Todo.subtasks. apply elem_of_app. by left. }
  rewrite Hg, with_completed_same, list_insert_id, set_store_same by done.
  apply for_each_noop. intros c Hc'. by apply IH, Hsub.
Qed.

Lemma ready_settles depth w w' :
  completes w w' →
  ∀ self, ready depth w self = true →
          (∀ d, reaches w self d → completed_in w' d = true) →
          settled depth w' self = true.
Proof.
  intros Hc. induction depth as [|depth IH]; intros self Hready Hall; [done|].
  simpl in Hready. simpl.
  destruct (store w !! self) as [t|] eqn:Hr; [|done].
  apply andb_true_iff in Hready as [_ Hsub]. rewrite forallb_elem in Hsub.
  destruct (completes_lookup _ _ _ _ Hc Hr) as (t' & Hr' & E & _).
  rewrite Hr'. apply andb_true_iff. split.
  - specialize (Hall self (reaches_self w self)).
    unfold completed_in in Hall. by rewrite Hr' in Hall.
  - assert (Todo.subtasks t' = Todo.subtasks t) as ->
      by (rewrite E; by destruct t).
    apply forallb_elem. intros c Hc'. apply IH; [by apply Hsub|].
    intros d Hd. apply Hall. by eapply reaches_subtask.
Qed.

(** X7.  Completing twice is completing once: after a successful
    [Todo.mark_complete] on a Todo that was ready for it, a second call
    succeeds and leaves the world exactly as the first one left it; and
    in general a call on a Todo that is completed together with
    everything below it changes nothing. *)
Theorem mark_complete_twice depth self w :
  ready depth w self = true →
  ∃ w', mark_complete depth self w = (Ret tt, w')
        ∧ mark_complete depth self w' = (Ret tt, w')
        ∧ (mark_complete depth self;; mark_complete depth self) w
          = (Ret tt, w')
        ∧ ∀ v r, settled depth v r = true →
                 mark_complete depth r v = (Ret tt, v).
Proof.
  intros Hready.
  destruct (mark_complete_ready depth w self Hready w (completes_refl w))
    as (w' & E & Hc & Hall).
  assert (E' : mark_complete depth self w' = (Ret tt, w')).
  { apply mark_complete_settled. by eapply ready_settles. }
  exists w'. split; [done|]. split; [done|]. split.
  - unfold bind. by rewrite E.
  - intros v r. apply mark_complete_settled.
Qed.

Lemma mark_complete_twice_witness :
  ∃ w', mark_complete 2 0 tidy_world = (Ret tt, w')
        ∧ mark_complete 2 0 w' = (Ret tt, w')
        ∧ (mark_complete 2 0;; mark_complete 2 0) tidy_world = (Ret tt, w')
        ∧ ∀ v r, settled 2 v r = true → mark_complete 2 r v = (Ret tt, v).
Proof.
  apply (mark_complete_twice 2 0 tidy_world). reflexivity.
Defined.

(** X8.  A Todo with no required subtask that lists itself first among
    its optional subtasks cannot be completed by [Todo.mark_complete]: the
    call sets the flag and then calls itself without end, for every
    recursion budget. *)
Theorem mark_complete_own_subtask depth self t w :
  store w !! self = Some t →
  Todo.required_subtasks t = [] →
  (∃ rest, Todo.optional_subtasks t = self :: rest) →
  fst (mark_complete depth self w) = OutOfFuel
  ∧ (depth ≠ 0%nat →
     completed_in (snd (mark_complete depth self w)) self = true).
Proof.
  intros Hr Hreq [rest Hopt].
  assert (Hfst : ∀ n v u, store v !! self = Some u →
                          Todo.required_subtasks u = [] →
                          Todo.optional_subtasks u = self :: rest →
                          fst (mark_complete n self v) = OutOfFuel).
  { induction n as [|n IH]; intros v u Hv Hu1 Hu2; [done|].
    rewrite mark_complete_S, Hv, Hu1. cbn [forallb].
    unfold Todo.subtasks. rewrite Hu1, Hu2. cbn [app for_each].
    unfold bind.
    destruct (mark_complete n self _) as [o v'] eqn:E.
    assert (Ho : fst (mark_complete n self
                        (set_store (<[self:=Todo.with_completed true u]>
                                      (store v)) v)) = OutOfFuel).
    { apply (IH _ (Todo.with_completed true u)).
      - simpl. apply list_lookup_insert_eq. by eapply lookup_lt_Some.
      - by destruct u.
      - by destruct u. }
    rewrite E in Ho. simpl in Ho. by subst o. }
  split; [by eapply Hfst|].
  intros Hd. destruct depth as [|depth]; [done|].
  destruct (mark_complete (S depth) self w) as [o w'] eqn:E.
  eapply mark_complete_passed; [done| |done]. by rewrite Hreq.
Qed.

Lemma mark_complete_own_subtask_witness :
  fst (mark_complete 25 0 loop_world) = OutOfFuel
  ∧ (25%nat ≠ 0%nat →
     completed_in (snd (mark_complete 25 0 loop_world)) 0 = true).
Proof.
  apply (mark_complete_own_subtask 25 0
           (Todo.mk "parent" 1 1 0 None false [] [0%nat] None) loop_world).
  - reflexivity.
  - reflexivity.
  - by exists [].
Defined.

(** X9.  [Todo.add_subtask] appends the subtask to the required or to
    the optional list, as asked, and touches nothing else, the parent's
    [completed] flag included, whatever the state of the subtask.  So
    when a subtask that is not completed is added as required,
    [mark_complete] on the parent fails at its guard from then on, also
    for a parent that was already completed. *)
Theorem add_subtask_keeps_flag self subtask required t w :
  store w !! self = Some t →
  ∃ w',
    add_subtask self subtask required w = (Ret tt, w')
    ∧ store w'
      = <[self := if required
                  then Todo.with_required
                         (Todo.required_subtasks t ++ [subtask]) t
                  else Todo.with_optional
                         (Todo.optional_subtasks t ++ [subtask]) t]>
          (store w)
    ∧ completed_in w' self = Todo.completed t
    ∧ (∀ r, r ≠ self → store w' !! r = store w !! r)
    ∧ todos w' = todos w ∧ draws w' = draws w ∧ cursor w' = cursor w
    ∧ trace w' = trace w
    ∧ (required = true → completed_in w subtask = false →
       ∀ depth,
         mark_complete (S depth) self w' = (Raise PrerequisiteError, w')).
Proof.
  intros Hr.
  assert (Hlt : (self < length (store w))%nat) by by eapply lookup_lt_Some.
  set (t' := if required
             then Todo.with_required (Todo.required_subtasks t ++ [subtask]) t
             else Todo.with_optional (Todo.optional_subtasks t ++ [subtask]) t).
  exists (set_store (<[self := t']> (store w)) w).
  assert (Hself : store (set_store (<[self := t']> (store w)) w) !! self
                  = Some t')
    by (simpl; by apply list_lookup_insert_eq).
  split; [unfold add_subtask, update, t'; destruct required; by rewrite Hr|].
  split; [done|].
  split; [unfold completed_in; rewrite Hself; by destruct required|].
  split; [intros r Hne; simpl; by apply list_lookup_insert_ne|].
  do 4 (split; [done|]).
  intros -> Hsub depth.
  eapply (mark_complete_stops _ _ _ _ subtask); [exact Hself| |].
  - simpl. apply elem_of_app. right. apply list_elem_of_here.
  - unfold completed_in in *.
    destruct (decide (subtask = self)) as [->|Hne].
    + rewrite Hself. simpl. by rewrite Hr in Hsub.
    + simpl. by rewrite list_lookup_insert_ne.
Qed.

(** Adding the completed Todo 1 of [tidy_world] as a required subtask of
    Todo 2. *)
Lemma add_subtask_keeps_flag_witness :
  store tidy_world !! 2%nat
  = Some (Todo.mk "extra" 1 1 0 None false [] [] None)
  ∧ completed_in tidy_world 1 = true
  ∧ ∃ w',
      add_subtask 2 1 true tidy_world = (Ret tt, w')
      ∧ store w'
        = <[2%nat := Todo.mk "extra" 1 1 0 None false [1%nat] [] None]>
            (store tidy_world).
Proof.
  split; [reflexivity|]. split; [reflexivity|].
  destruct (add_subtask_keeps_flag 2 1 true
              (Todo.mk "extra" 1 1 0 None false [] [] None) tidy_world)
    as (w' & H1 & H2 & _); [reflexivity|].
  by exists w'.
Defined.

(** ** The list helpers *)

Lemma read_allocated w r : is_Some (store w !! r) →
  ∃ t, store w !! r = Some t ∧ read r w = (Ret t, w).
Proof. intros [t Ht]. exists t. unfold read. by rewrite Ht. Qed.

Lemma get_todo_run w description :
  ∀ l, allocated w l →
    (∃ l1 r l2,
       l = l1 ++ r :: l2 ∧ described w description r = true
       ∧ Forall (λ x, described w description x = false) l1
       ∧ get_todo l description w = (Ret (Some r), w))
    ∨ (Forall (λ x, described w description x = false) l
       ∧ get_todo l description w = (Ret None, w)).
Proof.
  induction l as [|x l IH]; intros Hl; [by right|].
  apply Forall_cons in Hl as [Hx Hl].
  destruct (read_allocated w x Hx) as (t & Ht & Hread).
  simpl. unfold bind. rewrite Hread.
  destruct (String.eqb (Todo.description t) description) eqn:E.
  - left. exists [], x, l. repeat split; [|constructor].
    unfold described. by rewrite Ht.
  - assert (Hnx : described w description x = false)
      by (unfold described; by rewrite Ht).
    destruct (IH Hl) as [(l1 & r & l2 & -> & Hr & Hl1 & Hrun)|[Hnone Hrun]].
    + left. exists (x :: l1), r, l2. repeat split; try done.
      by constructor.
    + right. split; [by constructor | done].
Qed.

(** X10.  [get_todo] returns the first Todo of the list whose description
    is the one asked for, and "none" exactly when no Todo of the list has
    it; it changes nothing. *)
Theorem get_todo_first l description w :
  allocated w l →
  ∃ found,
    get_todo l description w = (Ret found, w)
    ∧ match found with
      | Some r =>
          ∃ l1 l2, l = l1 ++ r :: l2
                   ∧ described w description r = true
                   ∧ Forall (λ x, described w description x = false) l1
      | None => Forall (λ x, described w description x = false) l
      end.
Proof.
  intros Hl.
  destruct (get_todo_run w description l Hl)
    as [(l1 & r & l2 & -> & Hr & Hl1 & Hrun)|[Hnone Hrun]].
  - exists (Some r). split; [done|]. by exists l1, l2.
  - by exists None.
Qed.

Lemma get_todo_first_witness :
  ∃ found,
    get_todo [0; 1; 2]%nat "a" listed_world = (Ret found, listed_world)
    ∧ match found with
      | Some r =>
          ∃ l1 l2, [0; 1; 2]%nat = l1 ++ r :: l2
                   ∧ described listed_world "a" r = true
                   ∧ Forall (λ x, described listed_world "a" x = false) l1
      | None => Forall (λ x, described listed_world "a" x = false)
                       [0; 1; 2]%nat
      end.
Proof.
  apply (get_todo_first [0; 1; 2]%nat "a" listed_world).
  repeat constructor; by eexists.
Defined.

Lemma remove_first_middle r l1 l2 :
  r ∉ l1 → remove_first r (l1 ++ r :: l2) = Some (l1 ++ l2).
Proof.
  induction l1 as [|x l1 IH]; intros Hn; simpl.
  - by rewrite decide_True.
  - apply not_elem_of_cons in Hn as [Hne Hn].
    rewrite decide_False by done. by rewrite IH.
Qed.

Lemma remove_todo_run description w :
  allocated w (todos w) →
  (∃ l1 r l2,
     todos w = l1 ++ r :: l2 ∧ described w description r = true
     ∧ Forall (λ x, described w description x = false) l1
     ∧ remove_todo description w = (Ret true, set_todos (l1 ++ l2) w))
  ∨ (Forall (λ x, described w description x = false) (todos w)
     ∧ remove_todo description w = (Ret false, w)).
Proof.
  intros Hl. unfold remove_todo, bind.
  destruct (get_todo_run w description (todos w) Hl)
    as [(l1 & r & l2 & E & Hr & Hl1 & ->)|[Hnone ->]]; [left | by right].
  exists l1, r, l2. repeat split; try done.
  rewrite E, remove_first_middle; [done|].
  intros Hin. rewrite Forall_forall in Hl1. rewrite (Hl1 r Hin) in Hr. done.
Qed.

(** X11.  [remove_todo] takes out of the list the first Todo with the
    given description, only that one, keeping the others in order, and
    answers true; when no Todo has the description it answers false and
    the list stays as it is.  The Todo objects themselves are not
    touched. *)
Theorem remove_todo_first description w :
  allocated w (todos w) →
  (∃ l1 r l2,
     todos w = l1 ++ r :: l2 ∧ described w description r = true
     ∧ Forall (λ x, described w description x = false) l1
     ∧ remove_todo description w = (Ret true, set_todos (l1 ++ l2) w))
  ∨ (Forall (λ x, described w description x = false) (todos w)
     ∧ remove_todo description w = (Ret false, w)).
Proof. apply remove_todo_run. Qed.

Lemma remove_todo_first_witness :
  remove_todo "a" listed_world
  = (Ret true, set_todos [1; 2]%nat listed_world).
Proof.
  destruct (remove_todo_first "a" listed_world)
    as [(l1 & r & l2 & _ & _ & _ & _)|[_ _]];
    [repeat constructor; by eexists | reflexivity | reflexivity].
Defined.

Lemma set_todos_same w : set_todos (todos w) w = w.
Proof. by destruct w. Qed.

Lemma remove_first_last r l : r ∉ l → remove_first r (l ++ [r]) = Some l.
Proof.
  intros Hn. rewrite remove_first_middle by done. by rewrite app_nil_r.
Qed.

Lemma first_match_unique (P : ref → bool) l1 r l2 k1 r' k2 :
  l1 ++ r :: l2 = k1 ++ r' :: k2 →
  P r = true → Forall (λ x, P x = false) l1 →
  P r' = true → Forall (λ x, P x = false) k1 →
  l1 = k1 ∧ r = r' ∧ l2 = k2.
Proof.
  revert k1. induction l1 as [|x l1 IH]; intros k1 E Hr Hl1 Hr' Hk1.
  - destruct k1 as [|y k1]; simpl in E.
    + by injection E as <- <-.
    + injection E as <- _. apply Forall_cons in Hk1 as [Hy _]. congruence.
  - apply Forall_cons in Hl1 as [Hx Hl1].
    destruct k1 as [|y k1]; simpl in E.
    + injection E as <- _. congruence.
    + injection E as <- E. apply Forall_cons in Hk1 as [_ Hk1].
      destruct (IH k1 E Hr Hl1 Hr' Hk1) as (-> & -> & ->). done.
Qed.

(** X12.  Adding a Todo and then removing by its description gives the
    list back, provided no Todo already on the list has that description;
    if one has, it is that older Todo that goes and the new one stays. *)
Theorem add_then_remove todo t w :
  store w !! todo = Some t → allocated w (todos w) →
  (Forall (λ x, described w (Todo.description t) x = false) (todos w) →
   (add_todo todo;; remove_todo (Todo.description t)) w = (Ret true, w))
  ∧ (∀ l1 r l2,
       todos w = l1 ++ r :: l2 →
       described w (Todo.description t) r = true →
       Forall (λ x, described w (Todo.description t) x = false) l1 →
       (add_todo todo;; remove_todo (Todo.description t)) w
       = (Ret true, set_todos (l1 ++ l2 ++ [todo]) w)).
Proof.
  intros Ht Hl.
  assert (Hd : described w (Todo.description t) todo = true)
    by (unfold described; by rewrite Ht, String.eqb_refl).
  pose (w1 := set_todos (todos w ++ [todo]) w).
  assert (Hl1 : allocated w1 (todos w1)).
  { unfold allocated, w1. simpl. apply Forall_app. split; [done|].
    repeat constructor. by eexists. }
  assert (Hrun : (add_todo todo;; remove_todo (Todo.description t)) w
                 = remove_todo (Todo.description t) w1) by done.
  rewrite Hrun.
  destruct (remove_todo_run (Todo.description t) w1 Hl1)
    as [(k1 & r & k2 & E & Hr & Hk1 & ->)|[Hnone _]].
  2:{ exfalso. unfold w1 in Hnone. simpl in Hnone.
      apply Forall_app in Hnone as [_ Hn].
      apply Forall_cons in Hn as [Hn _].
      change (described w (Todo.description t) todo = false) in Hn.
      congruence. }
  change (todos w1) with (todos w ++ [todo]) in E.
  change (described w1) with (described w) in Hr, Hk1.
  split.
  - intros Hnone.
    destruct (first_match_unique (described w (Todo.description t))
                _ _ _ _ _ _ E Hd Hnone Hr Hk1) as (<- & <- & <-).
    rewrite app_nil_r. unfold w1. by destruct w.
  - intros l1 r' l2 E' Hr' Hl1'.
    rewrite E', <- app_assoc in E. simpl in E.
    destruct (first_match_unique (described w (Todo.description t))
                _ _ _ _ _ _ E Hr' Hl1' Hr Hk1) as (<- & <- & <-).
    unfold w1. by destruct w.
Qed.

Lemma add_then_remove_witness :
  (add_todo 1;; remove_todo "b") (set_todos [0%nat] listed_world)
  = (Ret true, set_todos [0%nat] listed_world).
Proof.
  refine (proj1 (add_then_remove 1
                   (Todo.mk "b" 1 1 0 None false [] [] None)
                   (set_todos [0%nat] listed_world) _ _) _).
  - reflexivity.
  - repeat constructor; by eexists.
  - repeat constructor.
Defined.

Lemma comprehension_run test w :
  ∀ l, allocated w l →
    comprehension test l w
    = (Ret (List.filter
              (λ r, match store w !! r with
                    | Some t => test t
                    | None => false
                    end) l), w).
Proof.
  induction l as [|x l IH]; intros Hl; [done|].
  apply Forall_cons in Hl as [Hx Hl].
  destruct (read_allocated w x Hx) as (t & Ht & Hread).
  simpl. unfold bind at 1. rewrite Hread. unfold bind. rewrite (IH Hl).
  rewrite Ht. by destruct (test t).
Qed.

Lemma filter_split {A} (f : A → bool) l :
  l ≡ₚ List.filter f l ++ List.filter (λ x, negb (f x)) l.
Proof.
  induction l as [|x l IH]; [done|]. simpl.
  destruct (f x); simpl.
  - by constructor.
  - rewrite <- Permutation_middle. by constructor.
Qed.

Lemma completed_filter_run l w :
  allocated w l →
  list_todos_by_completion_status l true w
  = (Ret (List.filter (completed_in w) l), w).
Proof.
  intros Hl. unfold list_todos_by_completion_status.
  rewrite comprehension_run by done.
  do 2 f_equal. apply List.filter_ext_in. intros r _.
  unfold completed_in. destruct (store w !! r) as [t|]; [|done].
  by destruct (Todo.completed t).
Qed.

(** X13.  The completed and the not completed Todos of a list, as
    [list_todos_by_completion_status] gives them, are each in the order of
    the list and together make up the list: every Todo is in exactly one
    of the two. *)
Theorem completion_status_partition l w :
  allocated w l →
  list_todos_by_completion_status l true w
  = (Ret (List.filter (completed_in w) l), w)
  ∧ list_todos_by_completion_status l false w
    = (Ret (List.filter (λ r, negb (completed_in w r)) l), w)
  ∧ l ≡ₚ List.filter (completed_in w) l
         ++ List.filter (λ r, negb (completed_in w r)) l
  ∧ List.filter (completed_in w) l `sublist_of` l
  ∧ List.filter (λ r, negb (completed_in w r)) l `sublist_of` l.
Proof.
  intros Hl.
  assert (Hsub : ∀ f : ref → bool, List.filter f l `sublist_of` l).
  { intros f. clear Hl. induction l as [|x l IH]; [done|]. simpl.
    destruct (f x); by constructor. }
  split; [by apply completed_filter_run|].
  split; [|split; [apply filter_split | split; apply Hsub]].
  unfold list_todos_by_completion_status.
  rewrite comprehension_run by done.
  do 2 f_equal. apply List.filter_ext_in. intros r Hr.
  unfold completed_in. unfold allocated in Hl. rewrite Forall_forall in Hl.
  destruct (Hl r) as [t ->]; [by apply list_elem_of_In|].
  by destruct (Todo.completed t).
Qed.

Lemma completion_status_partition_witness :
  list_todos_by_completion_status [0; 1; 2]%nat true tidy_world
  = (Ret [1%nat], tidy_world)
  ∧ list_todos_by_completion_status [0; 1; 2]%nat false tidy_world
    = (Ret [0; 2]%nat, tidy_world).
Proof.
  destruct (completion_status_partition [0; 1; 2]%nat tidy_world)
    as (H1 & H2 & _); [repeat constructor; by eexists|].
  split; [exact H1 | exact H2].
Defined.

Lemma filter_sublist_mono {A} (f g : A → bool) l :
  (∀ x, f x = true → g x = true) →
  List.filter f l `sublist_of` List.filter g l.
Proof.
  intros Hfg. induction l as [|x l IH]; [done|]. simpl.
  destruct (f x) eqn:Ef.
  - rewrite (Hfg x Ef). by constructor.
  - destruct (g x); [by constructor | done].
Qed.

(** X14.  [Todo.mark_complete] never takes a Todo off the completed side:
    whatever the call and its outcome, the completed Todos of a list
    before the call are, in order, among the completed Todos of the list
    after it. *)
Theorem completed_list_grows depth self l w :
  allocated w l →
  let w' := snd (mark_complete depth self w) in
  ∃ before after,
    list_todos_by_completion_status l true w = (Ret before, w)
    ∧ list_todos_by_completion_status l true w' = (Ret after, w')
    ∧ before `sublist_of` after.
Proof.
  intros Hl w'.
  assert (Hc : completes w w').
  { subst w'. destruct (mark_complete depth self w) as [o v] eqn:E.
    by eapply mark_complete_completes. }
  assert (Hl' : allocated w' l).
  { unfold allocated in *. rewrite Forall_forall in *. intros r Hr.
    destruct (Hl r Hr) as [t Ht].
    destruct (completes_lookup _ _ _ _ Hc Ht) as (t' & Ht' & _). by eexists. }
  eexists _, _. split; [by apply completed_filter_run|].
  split; [by apply completed_filter_run|].
  apply filter_sublist_mono. intros r. by apply completes_completed_in.
Qed.

Lemma completed_list_grows_witness :
  ∃ before after,
    list_todos_by_completion_status [0; 1; 2]%nat true tidy_world
    = (Ret before, tidy_world)
    ∧ list_todos_by_completion_status [0; 1; 2]%nat true
        (snd (mark_complete 2 0 tidy_world))
      = (Ret after, snd (mark_complete 2 0 tidy_world))
    ∧ before `sublist_of` after.
Proof.
  apply (completed_list_grows 2 0 [0; 1; 2]%nat tidy_world).
  repeat constructor; by eexists.
Defined.

(** ** More on task creation *)

(** X15.  With an importance above 10 and a quality generator that never
    goes negative, the modifier is never positive and no roll reaches the
    importance: [create_task] asks for another suggestion at every
    attempt, appends one Todo per attempt and never returns, whatever the
    recursion budget. *)
Theorem create_task_never_settles depth fuel description importance
    (dg : DifficultyGenerator) (qg : QualityGenerator)
    (sg : SuggestionGenerator) rb pb w :
  10 < importance → (∀ d, 0 ≤ @generate_quality qg d) →
  fst (create_task depth fuel description importance dg qg sg rb pb w)
  = OutOfFuel
  ∧ todos (snd (create_task depth fuel description importance dg qg sg
                  rb pb w))
    = todos w ++ seq (length (store w)) depth.
Proof.
  intros Himp Hq. revert description w.
  induction depth as [|depth IH]; intros description w.
  - simpl. by rewrite app_nil_r.
  - rewrite create_task_S. cbv zeta.
    assert (Hm : (0 <? @generate_quality qg description * (11 - importance))
                 = false).
    { apply Z.ltb_ge. apply Z.mul_nonneg_nonpos; [apply Hq | lia]. }
    rewrite Hm.
    assert (Hr : (importance <=? 1 + draws w (cursor w) `mod` 10) = false).
    { apply Z.leb_gt. pose proof (Z.mod_pos_bound (draws w (cursor w)) 10).
      revert H. generalize (draws w (cursor w) `mod` 10). intros z Hz. lia. }
    rewrite Hr.
    destruct (IH (@make_suggestion sg description)
                (log (printed ("Suggestion made: "
                               +:+ @make_suggestion sg description))
                   (log (called_make_suggestion description)
                      (advance (entered description importance dg qg w)))))
      as [E1 E2].
    split; [done|]. rewrite E2. simpl. rewrite length_app, <- app_assoc.
    simpl. do 3 f_equal. lia.
Qed.

Lemma create_task_never_settles_witness :
  fst (create_task 30 3 "Main task" 11 TestDifficultyGenerator
         TestQualityGenerator SimpleSuggestionGenerator reward_box
         punishment_box (fresh_world 9))
  = OutOfFuel.
Proof.
  refine (proj1 (create_task_never_settles 30 3 "Main task" 11
                   TestDifficultyGenerator TestQualityGenerator
                   SimpleSuggestionGenerator reward_box punishment_box
                   (fresh_world 9) _ _)).
  - reflexivity.
  - intros d. by vm_compute.
Defined.

(** X16.  With an importance of at most 1 every roll reaches it, so
    [create_task] never asks for a suggestion: it does not call itself,
    and its result does not depend on the recursion budget. *)
Theorem create_task_settles_at_once depth fuel description importance
    (dg : DifficultyGenerator) (qg : QualityGenerator)
    (sg : SuggestionGenerator) rb pb w :
  importance ≤ 1 →
  create_task (S depth) fuel description importance dg qg sg rb pb w
  = create_task 1 fuel description importance dg qg sg rb pb w
  ∧ todos (snd (create_task (S depth) fuel description importance dg qg sg
                  rb pb w))
    = todos w ++ [length (store w)].
Proof.
  intros Himp.
  assert (Hr : (importance <=? 1 + draws w (cursor w) `mod` 10) = true).
  { apply Z.leb_le. pose proof (Z.mod_pos_bound (draws w (cursor w)) 10).
    revert H. generalize (draws w (cursor w) `mod` 10). intros z Hz. lia. }
  rewrite !create_task_S. cbv zeta. rewrite Hr. split; [done|].
  destruct (0 <? _).
  - destruct (reward_branch _ _ _ _) as [o w'] eqn:E. simpl.
    apply builds_nothing_reward_branch in E as (_ & Ht & _). by rewrite Ht.
  - destruct (punishment_branch _ _ _ _) as [o w'] eqn:E. simpl.
    apply builds_nothing_punishment_branch in E as (_ & Ht & _).
    by rewrite Ht.
Qed.

Lemma create_task_settles_at_once_witness :
  create_task 9 3 "Main task" 1 TestDifficultyGenerator
    TestQualityGenerator SimpleSuggestionGenerator reward_box
    punishment_box (fresh_world 499)
  = create_task 1 3 "Main task" 1 TestDifficultyGenerator
      TestQualityGenerator SimpleSuggestionGenerator reward_box
      punishment_box (fresh_world 499).
Proof.
  refine (proj1 (create_task_settles_at_once 8 3 "Main task" 1
                   TestDifficultyGenerator TestQualityGenerator
                   SimpleSuggestionGenerator reward_box punishment_box
                   (fresh_world 499) _)).
  done.
Defined.

(** X17.  The punishment draw reuses the non-positive modifier.  When the
    roll reaches the importance and every punishment value is above
    [1000 + modifier], the draw from a non-empty punishment pool with a
    positive [pool_size] never ends, and neither does [create_task]; the
    new Todo is on the list all the same. *)
Theorem create_task_punishment_starves depth fuel description importance
    (dg : DifficultyGenerator) (qg : QualityGenerator)
    (sg : SuggestionGenerator) rb pb rewards w :
  let modifier := @generate_quality qg description * (11 - importance) in
  modifier ≤ 0 →
  importance ≤ 1 + draws w (cursor w) `mod` 10 →
  0 < Box.pool_size pb → Box.pool pb = RandomPool rewards → rewards ≠ [] →
  Forall (λ r, 1000 + modifier < Reward.value r) rewards →
  fst (create_task (S depth) fuel description importance dg qg sg rb pb w)
  = OutOfFuel
  ∧ todos (snd (create_task (S depth) fuel description importance dg qg sg
                  rb pb w))
    = todos w ++ [length (store w)].
Proof.
  intros modifier Hm Hroll Hk Hpool Hne Hall.
  apply Z.ltb_ge in Hm. apply Z.leb_le in Hroll.
  rewrite create_task_S. cbv zeta. fold modifier. rewrite Hm, Hroll.
  destruct (punishment_branch _ _ _ _) as [o w'] eqn:E.
  pose proof (builds_nothing_punishment_branch _ _ _ _ _ _ E) as (_ & Ht & _).
  split; [|simpl; by rewrite Ht].
  unfold punishment_branch, bind at 1, get_reward_pool in E.
  destruct (reward_loop_starves pb modifier rewards Hk Hpool Hne Hall fuel
              (advance (entered description importance dg qg w)))
    as (v & Hv & _).
  rewrite Hv in E. by injection E as <- _.
Qed.

Lemma create_task_punishment_starves_witness :
  fst (create_task 1 60 "Main task" 5 TestDifficultyGenerator
         PoorQualityGenerator SimpleSuggestionGenerator reward_box
         punishment_box (fresh_world 9))
  = OutOfFuel.
Proof.
  refine (proj1 (create_task_punishment_starves 0 60 "Main task" 5
                   TestDifficultyGenerator PoorQualityGenerator
                   SimpleSuggestionGenerator reward_box punishment_box
                   [punishment1; punishment2; punishment3] (fresh_world 9)
                   _ _ _ _ _ _)).
  - by vm_compute.
  - by vm_compute.
  - reflexivity.
  - reflexivity.
  - done.
  - repeat constructor; reflexivity.
Defined.

(** X18.  Handed a reward box built by the [LootBox] constructor, with a
    positive [pool_size], [create_task] with a positive modifier raises
    [AttributeError] at the first [select_reward]; nothing is rolled
    back: the new Todo stays on the list. *)
Theorem create_task_with_LootBox depth fuel description importance
    (dg : DifficultyGenerator) (qg : QualityGenerator)
    (sg : SuggestionGenerator) name key_name pool_size rewards pb w :
  0 < @generate_quality qg description * (11 - importance) →
  0 < pool_size →
  create_task (S depth) (S fuel) description importance dg qg sg
    (LootBox.box (LootBox_init name key_name pool_size rewards)) pb w
  = (Raise AttributeError, entered description importance dg qg w).
Proof.
  intros Hm Hk. apply Z.ltb_lt in Hm. apply Z.ltb_lt in Hk.
  rewrite create_task_S. cbv zeta. rewrite Hm.
  unfold reward_branch, bind at 1, get_reward_pool, LootBox_init.
  cbn [reward_loop length LootBox.box Box.pool_size Box.pool].
  change (Z.of_nat 0) with 0. rewrite Hk.
  unfold bind. by rewrite select_reward_list.
Qed.

Lemma create_task_with_LootBox_witness :
  create_task 1 4 "Main task" 5 TestDifficultyGenerator
    TestQualityGenerator SimpleSuggestionGenerator
    (LootBox.box (LootBox_init "Chest" "reward_key_1" 3
                    [reward1; reward2; reward3]))
    punishment_box (fresh_world 499)
  = (Raise AttributeError,
     entered "Main task" 5 TestDifficultyGenerator TestQualityGenerator
       (fresh_world 499)).
Proof.
  apply (create_task_with_LootBox 0 3 "Main task" 5 TestDifficultyGenerator
           TestQualityGenerator SimpleSuggestionGenerator "Chest"
           "reward_key_1" 3 [reward1; reward2; reward3] punishment_box
           (fresh_world 499)); reflexivity.
Defined.

(** X19.  A Todo made by [create_task] has no score function, so its
    [get_value] is the importance times the difficulty the generator
    gave for its description; asking for the value changes nothing. *)
Theorem created_todo_value depth fuel description importance
    (dg : DifficultyGenerator) (qg : QualityGenerator)
    (sg : SuggestionGenerator) rb pb w :
  let w' := snd (create_task (S depth) fuel description importance dg qg sg
                   rb pb w) in
  get_value (length (store w)) w'
  = (Ret (importance * @generate_difficulty dg description), w').
Proof.
  intros w'. subst w'.
  destruct (create_task (S depth) _ _ _ _ _ _ _ _ _) as [o w'] eqn:E.
  apply create_task_history in E as (n & tr & Hn & Hs & _).
  destruct n as [|n]; [simpl in Hn; lia|].
  change (seq 0 (S n)) with (0%nat :: seq 1 n) in Hs.
  rewrite fmap_cons in Hs.
  unfold get_value, bind, read. simpl snd.
  rewrite Hs, list_lookup_middle by done. done.
Qed.

Lemma filter_filter_same {A} (f : A → bool) l :
  List.filter f (List.filter f l) = List.filter f l.
Proof.
  induction l as [|x l IH]; [done|]. simpl.
  destruct (f x) eqn:E; [|done]. simpl. by rewrite E, IH.
Qed.

Lemma filter_filter_none {A} (f g : A → bool) l :
  (∀ x, f x = true → g x = false) → List.filter g (List.filter f l) = [].
Proof.
  intros H. induction l as [|x l IH]; [done|]. simpl.
  destruct (f x) eqn:E; [|done]. simpl. by rewrite (H x E).
Qed.

Lemma allocated_filter w (f : ref → bool) l :
  allocated w l → allocated w (List.filter f l).
Proof.
  unfold allocated. rewrite !Forall_forall. intros H r Hr. apply H.
  apply list_elem_of_In in Hr. apply List.filter_In in Hr as [Hr _].
  by apply list_elem_of_In.
Qed.

(** X20.  [list_todos_by_importance] gives, in the order of the list,
    exactly the Todos of that importance and changes nothing; filtering
    its result again by the same importance gives the same list, and by
    another importance the empty list. *)
Theorem importance_filter l importance other w :
  allocated w l → other ≠ importance →
  ∃ chosen,
    list_todos_by_importance l importance w = (Ret chosen, w)
    ∧ chosen `sublist_of` l
    ∧ (∀ r, r ∈ chosen ↔
            r ∈ l ∧ ∃ t, store w !! r = Some t
                         ∧ Todo.importance t = importance)
    ∧ list_todos_by_importance chosen importance w = (Ret chosen, w)
    ∧ list_todos_by_importance chosen other w = (Ret [], w).
Proof.
  intros Hl Hne. unfold list_todos_by_importance.
  rewrite comprehension_run by done.
  set (f := λ i (r : ref), match store w !! r with
                           | Some t => Todo.importance t =? i
                           | None => false
                           end).
  change (List.filter _ l) with (List.filter (f importance) l).
  exists (List.filter (f importance) l). split; [done|]. split.
  { clear Hl. induction l as [|x l IH]; [done|]. simpl.
    destruct (f importance x); by constructor. }
  split.
  { intros r. rewrite list_elem_of_In, List.filter_In, <- list_elem_of_In.
    unfold f. split.
    - intros [Hr Hf]. split; [done|].
      destruct (store w !! r) as [t|]; [|done].
      exists t. split; [done|]. by apply Z.eqb_eq.
    - intros [Hr (t & -> & Ht)]. split; [done|]. by apply Z.eqb_eq. }
  rewrite !comprehension_run by by apply allocated_filter.
  split.
  - f_equal. f_equal. apply filter_filter_same.
  - f_equal. f_equal. apply filter_filter_none. intros r. unfold f.
    destruct (store w !! r) as [t|]; [|done].
    intros Hi. apply Z.eqb_eq in Hi. apply Z.eqb_neq. congruence.
Qed.

Lemma importance_filter_witness :
  ∃ chosen,
    list_todos_by_importance [0; 1; 2]%nat 1 listed_world
    = (Ret chosen, listed_world)
    ∧ list_todos_by_importance chosen 7 listed_world
      = (Ret [], listed_world).
Proof.
  destruct (importance_filter [0; 1; 2]%nat 1 7 listed_world)
    as (chosen & H1 & _ & _ & _ & H2).
  - repeat constructor; by eexists.
  - done.
  - by exists chosen.
Defined.

(** X21.  Looking up what was just created: when no Todo on the list has
    the description, [get_todo] on the list after [create_task] finds the
    Todo that invocation constructed first, whatever happened in the
    invocation afterwards. *)
Theorem get_todo_after_create_task depth fuel description importance
    (dg : DifficultyGenerator) (qg : QualityGenerator)
    (sg : SuggestionGenerator) rb pb w :
  allocated w (todos w) →
  Forall (λ x, described w description x = false) (todos w) →
  let w' := snd (create_task (S depth) fuel description importance dg qg sg
                   rb pb w) in
  get_todo (todos w') description w' = (Ret (Some (length (store w))), w')
  ∧ store w' !! length (store w)
    = Some (new_todo_of description importance dg qg).
Proof.
  intros Hl Hnone w'. subst w'.
  destruct (create_task (S depth) _ _ _ _ _ _ _ _ _) as [o w'] eqn:E.
  apply create_task_history in E as (n & tr & Hn & Hs & Ht & _).
  destruct n as [|n]; [simpl in Hn; lia|]. simpl snd.
  change (seq 0 (S n)) with (0%nat :: seq 1 n) in Hs.
  rewrite fmap_cons in Hs.
  change (seq (length (store w)) (S n))
    with (length (store w) :: seq (S (length (store w))) n) in Ht.
  assert (Hnew : store w' !! length (store w)
                 = Some (new_todo_of description importance dg qg))
    by (rewrite Hs; by apply list_lookup_middle).
  split; [|done].
  assert (Hold : ∀ x, is_Some (store w !! x) → store w' !! x = store w !! x).
  { intros x Hx. rewrite Hs. apply lookup_app_l. by apply lookup_lt_is_Some. }
  assert (Hl' : allocated w' (todos w')).
  { unfold allocated. rewrite Ht. apply Forall_app. split.
    - unfold allocated in Hl. rewrite Forall_forall in *. intros x Hx.
      rewrite Hold; auto.
    - rewrite Forall_forall. intros x Hx. apply lookup_lt_is_Some.
      rewrite Hs, length_app. simpl. rewrite length_fmap, length_seq.
      apply elem_of_cons in Hx as [->|Hx]; [lia|].
      apply elem_of_seq in Hx. lia. }
  assert (Hnone' : Forall (λ x, described w' description x = false)
                          (todos w)).
  { unfold allocated in Hl. rewrite Forall_forall in *. intros x Hx.
    unfold described. rewrite Hold by auto. by apply Hnone. }
  assert (Hd : described w' description (length (store w)) = true)
    by (unfold described; rewrite Hnew; apply String.eqb_refl).
  destruct (get_todo_run w' description (todos w') Hl')
    as [(l1 & r & l2 & E & Hr & Hl1 & ->)|[Hno _]].
  - rewrite Ht in E.
    destruct (first_match_unique (described w' description)
                _ _ _ _ _ _ E Hd Hnone' Hr Hl1) as (_ & <- & _).
    done.
  - exfalso. rewrite Ht in Hno. apply Forall_app in Hno as [_ Hno].
    apply Forall_cons in Hno as [Hno _]. congruence.
Qed.

Lemma get_todo_after_create_task_witness :
  let w' := snd (create_task 1 3 "Main task" 5 TestDifficultyGenerator
                   TestQualityGenerator SimpleSuggestionGenerator reward_box
                   punishment_box listed_world) in
  get_todo (todos w') "Main task" w' = (Ret (Some 3%nat), w').
Proof.
  refine (proj1 (get_todo_after_create_task 0 3 "Main task" 5
                   TestDifficultyGenerator TestQualityGenerator
                   SimpleSuggestionGenerator reward_box punishment_box
                   listed_world _ _)).
  - repeat constructor; by eexists.
  - repeat constructor.
Defined.
